(** * KNewStuff: the QML [Author] adapter and the KMoreTools menu helper

    A shallow embedding of [src/qtquick/author.cpp] (the adapter that
    resolves author records through the process-wide [allAuthors] cache)
    and a model of the KMoreTools classes declared in
    [src/kmoretools/kmoretools.h], with the properties the specification
    states about them. *)

From Stdlib Require Import Ascii.
From stdpp Require Import gmap strings list pretty.

Open Scope string_scope.

(** [QString::isEmpty()] *)
Definition isEmpty (s : string) : bool := bool_decide (s = "").

(** [QString::replace(before, after)] for a non-empty [before]: every
    occurrence of [before], found from left to right without overlap, gives
    way to [after]. [skip] counts the characters of a found occurrence still
    to pass over. *)
Fixpoint replaceFrom (before after : string) (skip : nat) (s : string) : string :=
  match s with
  | EmptyString => ""
  | String c s' =>
      match skip with
      | S k => replaceFrom before after k s'
      | 0 =>
          if String.prefix before s
          then after +:+ replaceFrom before after (String.length before - 1) s'
          else String c (replaceFrom before after 0 s')
      end
  end.

Definition replace (before after s : string) : string := replaceFrom before after 0 s.

(** [s] has an occurrence of [b]. *)
Fixpoint occurs (b s : string) : bool :=
  String.prefix b s ||
  match s with
  | EmptyString => false
  | String _ s' => occurs b s'
  end.

(** [QString::arg(a)] on a string whose place markers are [%1] and [%2]
    only, as the key format of author.cpp has them: the lower-numbered
    marker present gives way to [a]. *)
Definition arg12 (s a : string) : string :=
  if occurs "%1" s then replace "%1" a s else replace "%2" a s.

(** ** The collaborators of namespace KNSCore

    Only what author.cpp uses of them: the getters of an author record and
    the identity and [id()] of a provider. *)
Module KNSCore.

(** [KNSCore::Author], held through [std::shared_ptr]. A [QUrl] is kept
    as its string, the default-constructed [QUrl{}] being [""]. *)
Module Author.
Record t : Type := mk {
  id : string;
  name : string;
  description : string;
  homepage : string;
  profilepage : string;
  avatarUrl : string
}.

#[global] Instance eq_dec : EqDecision t.
Proof. solve_decision. Defined.
End Author.

(** [KNSCore::Provider], held through [QSharedPointer]: the object (its
    address, which is what connect and disconnect go by) and its [id()]. *)
Module Provider.
Record t : Type := mk {
  addr : nat;
  id : string
}.

#[global] Instance eq_dec : EqDecision t.
Proof. solve_decision. Defined.
End Provider.

End KNSCore.

(** ** KNewStuffQuick::Author *)
Module Author.

(** A non-null [QObject*]: the object's dynamic type decides what
    [qobject_cast] answers. *)
Inductive QObject : Type :=
| QuickEngine (a : nat)   (* a KNewStuffQuick::Engine *)
| CoreEngine (a : nat)    (* a KNSCore::Engine *)
| OtherObject (a : nat).

#[global] Instance QObject_eq_dec : EqDecision QObject.
Proof. solve_decision. Defined.

(** [qobject_cast<Engine*>(o)]; [None] is [nullptr]. *)
Definition qobject_cast_Engine (o : option QObject) : option nat :=
  match o with
  | Some (QuickEngine a) => Some a
  | _ => None
  end.

(** [qobject_cast<KNSCore::Engine*>(o)] *)
Definition qobject_cast_CoreEngine (o : option QObject) : option nat :=
  match o with
  | Some (CoreEngine a) => Some a
  | _ => None
  end.

(** The implicit conversion of an [Engine*] to [QObject*], as in the
    comparison [d->engine != newEngine]. *)
Definition as_QObject (e : option nat) : option QObject := QuickEngine <$> e.

(** What the engines answer at the time of a call. These objects live
    outside the adapter and may answer differently from call to call. *)
Record World : Type := {
  (* KNewStuffQuick::Engine::engine() of the engine at an address *)
  Engine_engine : nat → option QObject;
  (* KNSCore::Engine::provider(providerId) *)
  Engine_provider : nat → string → option KNSCore.Provider.t;
  (* KNSCore::Engine::defaultProvider() *)
  Engine_defaultProvider : nat → option KNSCore.Provider.t
}.

(** The fields of [Author::Private] ([q] is the adapter itself). *)
Record Private : Type := mkPrivate {
  componentCompleted : bool;
  engine : option nat;
  providerId : string;
  username : string;
  provider : option KNSCore.Provider.t
}.

(** What the adapter sends out: the request to the provider and the
    signals of the adapter. *)
Inductive Event : Type :=
| LoadPerson (p : KNSCore.Provider.t) (u : string)
| EngineChanged
| ProviderIdChanged
| UsernameChanged
| DataChanged.

#[global] Instance Event_eq_dec : EqDecision Event.
Proof. solve_decision. Defined.

(** One adapter together with what it shares with the process: the
    global [allAuthors] hash, the providers whose [personLoaded] is
    connected to the adapter (one entry per connection), and the events
    sent so far. Only non-null records enter the hash (the slot reads
    [author->id()]), and [QHash::value] of an absent key is the null
    pointer, so a lookup is an [option]. *)
Record State : Type := mkState {
  d : Private;
  allAuthors : gmap string KNSCore.Author.t;
  connections : list KNSCore.Provider.t;
  trace : list Event
}.

(** The state before any call: the member initialisers of [Private]. *)
Definition initial (cache : gmap string KNSCore.Author.t) : State :=
  mkState (mkPrivate false None "" "" None) cache [] [].

(** Methods run on the state and either return or dereference a null
    pointer ([None]). *)
Definition M (A : Type) : Type := State → option (A * State).

#[global] Instance M_ret : MRet M := λ A a σ, Some (a, σ).
#[global] Instance M_bind : MBind M := λ A B k m σ,
  match m σ with
  | Some (a, σ') => k a σ'
  | None => None
  end.

Definition nullDeref {A} : M A := λ _, None.

Definition getD : M Private := λ σ, Some (d σ, σ).
Definition putD (x : Private) : M unit := λ σ,
  Some (tt, mkState x (allAuthors σ) (connections σ) (trace σ)).
Definition getAllAuthors : M (gmap string KNSCore.Author.t) := λ σ,
  Some (allAuthors σ, σ).
Definition putAllAuthors (c : gmap string KNSCore.Author.t) : M unit := λ σ,
  Some (tt, mkState (d σ) c (connections σ) (trace σ)).
Definition getConnections : M (list KNSCore.Provider.t) := λ σ,
  Some (connections σ, σ).
Definition putConnections (l : list KNSCore.Provider.t) : M unit := λ σ,
  Some (tt, mkState (d σ) (allAuthors σ) l (trace σ)).
Definition send (e : Event) : M unit := λ σ,
  Some (tt, mkState (d σ) (allAuthors σ) (connections σ) (trace σ ++ [e])).

Definition setComponentCompleted (b : bool) (x : Private) : Private :=
  mkPrivate b (engine x) (providerId x) (username x) (provider x).
Definition setEngineField (e : option nat) (x : Private) : Private :=
  mkPrivate (componentCompleted x) e (providerId x) (username x) (provider x).
Definition setProviderIdField (s : string) (x : Private) : Private :=
  mkPrivate (componentCompleted x) (engine x) s (username x) (provider x).
Definition setUsernameField (s : string) (x : Private) : Private :=
  mkPrivate (componentCompleted x) (engine x) (providerId x) s (provider x).
Definition setProviderField (p : option KNSCore.Provider.t) (x : Private) : Private :=
  mkPrivate (componentCompleted x) (engine x) (providerId x) (username x) p.

(** [provider->disconnect(q)]: every connection from that provider to
    the adapter goes. *)
Definition disconnect (p : KNSCore.Provider.t) : M unit :=
  l ← getConnections; putConnections (filter (λ c, c ≠ p) l).

(** [connect(provider.get(), &Provider::personLoaded, q, slot)] *)
Definition connect (p : KNSCore.Provider.t) : M unit :=
  l ← getConnections; putConnections (l ++ [p]).

(** [emit q->dataChanged()] *)
Definition emit_dataChanged : M unit := send DataChanged.

(** The constructor connects the three change signals to [dataChanged],
    so emitting one of them emits [dataChanged] after it. *)
Definition emit_engineChanged : M unit := send EngineChanged;; emit_dataChanged.
Definition emit_providerIdChanged : M unit := send ProviderIdChanged;; emit_dataChanged.
Definition emit_usernameChanged : M unit := send UsernameChanged;; emit_dataChanged.

(** *** Notions the statements below are written with *)

(** The state with further events sent. *)
Definition logged (e : list Event) (σ : State) : State :=
  mkState (d σ) (allAuthors σ) (connections σ) (trace σ ++ e).

(** The state with other private fields. *)
Definition with_d (x : Private) (σ : State) : State :=
  mkState x (allAuthors σ) (connections σ) (trace σ).

(** A call that returned, followed by the emission of signals. *)
Definition then_emit (e : list Event) (r : option (unit * State)) : option (unit * State) :=
  match r with
  | Some (_, σ1) => Some (tt, logged e σ1)
  | None => None
  end.

(** The provider [resetConnections] settles on, read off its middle
    block; the outer [None] is the call through the null [coreEngine]. *)
Definition resolvedProvider (w : World) (x : Private) : option (option KNSCore.Provider.t) :=
  match engine x with
  | Some e =>
      match Engine_engine w e with
      | Some (CoreEngine ce) =>
          Some (match Engine_provider w ce (providerId x) with
                | Some p => Some p
                | None => Engine_defaultProvider w ce
                end)
      | Some _ => match provider x with Some p => Some (Some p) | None => None end
      | None => Some (provider x)
      end
  | None => Some (provider x)
  end.

(** The connections left once the held provider is disconnected. *)
Definition disconnected (σ : State) : list KNSCore.Provider.t :=
  match provider (d σ) with
  | Some p => filter (λ c, c ≠ p) (connections σ)
  | None => connections σ
  end.

(** Connections follow the provider field, and no provider is held
    before the component is complete. *)
Definition inv (σ : State) : Prop :=
  connections σ = option_list (provider (d σ)) ∧
  (componentCompleted (d σ) = false → provider (d σ) = None).

(** The state of an adapter that has resolved nothing yet. *)
Definition dormant (σ : State) : Prop :=
  componentCompleted (d σ) = false ∧ provider (d σ) = None ∧
  connections σ = [] ∧ ∀ p u, LoadPerson p u ∉ trace σ.

Section WithKey.

(** [QString::arg(const QString &)] of Qt: the receiver with its
    lowest-numbered place marker replaced by the argument. *)
Variable arg : string → string → string.

(** [QString::fromLatin1("%1 %2").arg(a).arg(b)] *)
Definition authorKey (a b : string) : string := arg (arg "%1 %2" a) b.

(** [Author::Private::author()] *)
Definition author : M (option KNSCore.Author.t) :=
  x ← getD;
  match provider x with
  | Some p =>
      if isEmpty (username x) then mret None
      else
        c ← getAllAuthors;
        match c !! authorKey (KNSCore.Provider.id p) (username x) with
        | Some a => mret (Some a)
        | None => send (LoadPerson p (username x));; mret None
        end
  | None => mret None
  end.

(** The slot connected to [personLoaded] in [resetConnections]. The
    lambda captures [this], so [provider] is the field at the time the
    signal arrives. *)
Definition personLoaded_slot (a : KNSCore.Author.t) : M unit :=
  x ← getD;
  match provider x with
  | Some p =>
      c ← getAllAuthors;
      putAllAuthors (<[authorKey (KNSCore.Provider.id p) (KNSCore.Author.id a) := a]> c);;
      emit_dataChanged
  | None => nullDeref
  end.

(** [Author::Private::resetConnections()] *)
Definition resetConnections (w : World) : M unit :=
  x ← getD;
  if negb (componentCompleted x) then mret tt
  else
    match provider x with
    | Some p => disconnect p
    | None => mret tt
    end;;
    match engine x with
    | Some e =>
        match Engine_engine w e with
        | Some o =>
            let coreEngine := qobject_cast_CoreEngine (Some o) in
            match coreEngine with
            | Some ce =>
                x1 ← getD;
                putD (setProviderField (Engine_provider w ce (providerId x1)) x1)
            | None => mret tt
            end;;
            x2 ← getD;
            match provider x2 with
            | Some _ => mret tt
            | None =>
                match coreEngine with
                | Some ce => putD (setProviderField (Engine_defaultProvider w ce) x2)
                | None => nullDeref
                end
            end
        | None => mret tt
        end
    | None => mret tt
    end;;
    x3 ← getD;
    match provider x3 with
    | Some p => connect p;; author;; mret tt
    | None => mret tt
    end.

(** [Author::componentComplete()] *)
Definition componentComplete (w : World) : M unit :=
  x ← getD;
  putD (setComponentCompleted true x);;
  resetConnections w.

(** [Author::setEngine(QObject *newEngine)] *)
Definition setEngine (w : World) (newEngine : option QObject) : M unit :=
  x ← getD;
  if bool_decide (as_QObject (engine x) ≠ newEngine) then
    putD (setEngineField (qobject_cast_Engine newEngine) x);;
    resetConnections w;;
    emit_engineChanged
  else mret tt.

(** [Author::setProviderId(const QString &providerId)] *)
Definition setProviderId (w : World) (newId : string) : M unit :=
  x ← getD;
  if bool_decide (providerId x ≠ newId) then
    putD (setProviderIdField newId x);;
    resetConnections w;;
    emit_providerIdChanged
  else mret tt.

(** [Author::setUsername(const QString &username)] *)
Definition setUsername (w : World) (newName : string) : M unit :=
  x ← getD;
  if bool_decide (username x ≠ newName) then
    putD (setUsernameField newName x);;
    resetConnections w;;
    emit_usernameChanged
  else mret tt.

(** [Author::name()] *)
Definition name : M string :=
  a ← author;
  match a with
  | Some r =>
      if negb (isEmpty (KNSCore.Author.name r)) then mret (KNSCore.Author.name r)
      else x ← getD; mret (username x)
  | None => x ← getD; mret (username x)
  end.

(** [Author::description()] *)
Definition description : M string :=
  a ← author;
  match a with
  | Some r => mret (KNSCore.Author.description r)
  | None => mret ""
  end.

(** [Author::homepage()] *)
Definition homepage : M string :=
  a ← author;
  match a with
  | Some r => mret (KNSCore.Author.homepage r)
  | None => mret ""
  end.

(** [Author::profilepage()] *)
Definition profilepage : M string :=
  a ← author;
  match a with
  | Some r => mret (KNSCore.Author.profilepage r)
  | None => mret ""
  end.

(** [Author::avatarUrl()] *)
Definition avatarUrl : M string :=
  a ← author;
  match a with
  | Some r => mret (KNSCore.Author.avatarUrl r)
  | None => mret ""
  end.

(** The provider [sender] emits [personLoaded(a)]: the slot runs once
    for each connection from that provider to the adapter. *)
Fixpoint deliver (n : nat) (a : KNSCore.Author.t) : M unit :=
  match n with
  | 0 => mret tt
  | S n' => personLoaded_slot a;; deliver n' a
  end.

Definition personLoaded (sender : KNSCore.Provider.t) (a : KNSCore.Author.t) : M unit :=
  l ← getConnections;
  deliver (length (filter (λ c, c = sender) l)) a.

(** The calls that reach an adapter: the QML engine completing the
    component, writing and reading properties, and the provider
    emitting [personLoaded]. *)
Inductive Call : Type :=
| CallComponentComplete
| CallSetEngine (newEngine : option QObject)
| CallSetProviderId (newId : string)
| CallSetUsername (newName : string)
| CallName
| CallDescription
| CallHomepage
| CallProfilepage
| CallAvatarUrl
| SignalPersonLoaded (sender : KNSCore.Provider.t) (a : KNSCore.Author.t).

Definition run (w : World) (c : Call) : M unit :=
  match c with
  | CallComponentComplete => componentComplete w
  | CallSetEngine o => setEngine w o
  | CallSetProviderId s => setProviderId w s
  | CallSetUsername s => setUsername w s
  | CallName => name;; mret tt
  | CallDescription => description;; mret tt
  | CallHomepage => homepage;; mret tt
  | CallProfilepage => profilepage;; mret tt
  | CallAvatarUrl => avatarUrl;; mret tt
  | SignalPersonLoaded sender a => personLoaded sender a
  end.

(** A run of calls, each with what the engines answer at that time. *)
Fixpoint runAll (cs : list (World * Call)) : M unit :=
  match cs with
  | [] => mret tt
  | (w, c) :: cs' => run w c;; runAll cs'
  end.

(** The states of an adapter in a running process: it starts from the
    member initialisers with whatever the shared hash holds, its own
    calls run, and the slots of other adapters insert into the hash. *)
Inductive reachable : State → Prop :=
| reachable_initial cache : reachable (initial cache)
| reachable_run w c σ σ' :
    reachable σ → run w c σ = Some (tt, σ') → reachable σ'
| reachable_other_adapter (p : KNSCore.Provider.t) (a : KNSCore.Author.t) σ :
    reachable σ →
    reachable (mkState (d σ)
                 (<[authorKey (KNSCore.Provider.id p) (KNSCore.Author.id a) := a]> (allAuthors σ))
                 (connections σ) (trace σ)).

(** The adapter listens to [p]: [p] is its provider and there is one
    connection, from [p]. *)
Definition connected_to (σ : State) (p : KNSCore.Provider.t) : Prop :=
  provider (d σ) = Some p ∧ connections σ = [p].

(** [Engine::engine()] hands out KNSCore engines only, so the cast in
    [resetConnections] succeeds on every non-null answer. *)
Definition engines_are_core (w : World) : Prop :=
  ∀ e o, Engine_engine w e = Some o → ∃ a, o = CoreEngine a.

(** [Author::classBegin()] *)
Definition classBegin : M unit := mret tt.

(** [Author::engine()], [Author::providerId()] and [Author::username()],
    the getters of the three properties; [engine()] hands the stored
    [Engine*] out as a [QObject*]. *)
Definition read_engine : M (option QObject) := x ← getD; mret (as_QObject (engine x)).
Definition read_providerId : M string := x ← getD; mret (providerId x).
Definition read_username : M string := x ← getD; mret (username x).

(** What [author()] sends from a state: the request for the username to
    the provider held, when there is one, the username is not empty and
    the hash has no record under the key. *)
Definition lookupRequest (σ : State) : list Event :=
  match provider (d σ) with
  | Some p =>
      if isEmpty (username (d σ)) then []
      else match allAuthors σ !! authorKey (KNSCore.Provider.id p) (username (d σ)) with
           | Some _ => []
           | None => [LoadPerson p (username (d σ))]
           end
  | None => []
  end.

(** The three change signals the constructor forwards to [dataChanged]. *)
Definition isChangeSignal (e : Event) : bool :=
  match e with
  | EngineChanged | ProviderIdChanged | UsernameChanged => true
  | _ => false
  end.

(** In a list of events every change signal has [dataChanged] next. *)
Definition forwarded (t : list Event) : Prop :=
  ∀ i e, t !! i = Some e → isChangeSignal e = true → t !! S i = Some DataChanged.

(** What an adapter may have sent: requests for non-empty usernames, and
    change signals with [dataChanged] behind them. *)
Definition sound_events (t : list Event) : Prop :=
  (∀ p u, LoadPerson p u ∈ t → u ≠ "") ∧ forwarded t.

(** The calls that read a property of the record. *)
Definition isRead (c : Call) : bool :=
  match c with
  | CallName | CallDescription | CallHomepage | CallProfilepage | CallAvatarUrl => true
  | _ => false
  end.

End WithKey.

End Author.

(** ** KMoreTools *)
Module KMoreTools.

(** The enums of class [KMoreTools]. *)
Inductive ServiceLocatingMode : Type :=
| ServiceLocatingMode_Default
| ServiceLocatingMode_ByProvidedExecLine.

Inductive MenuSection : Type :=
| MenuSection_Main
| MenuSection_More.

Inductive ConfigureDialogAccessibleSetting : Type :=
| ConfigureDialogAccessible_Always
| ConfigureDialogAccessible_Defensive.

#[global] Instance MenuSection_eq_dec : EqDecision MenuSection.
Proof. solve_decision. Defined.

(** What KMoreTools reads of a desktop file ([KService]). *)
Record KService : Type := mkKService {
  genericName : string;
  name : string;
  icon : string;
  exec : string
}.

#[global] Instance KService_eq_dec : EqDecision KService.
Proof. solve_decision. Defined.

(** [KMoreToolsService], by the arguments of its constructor and
    [setHomepageUrl]. *)
Record KMoreToolsService : Type := mkService {
  kmtDesktopfileSubdir : string;
  desktopEntryName : string;
  isInstalled : bool;
  installedService : option KService;
  kmtProvidedService : option KService;
  homepageUrl : string
}.

#[global] Instance KMoreToolsService_eq_dec : EqDecision KMoreToolsService.
Proof. solve_decision. Defined.

(** Modelled from the spec: kmoretools.cpp is not among the sources, so
    the descriptor a service reads its texts from follows section 3 and
    the header: the installed desktop file, else the bundled one, else
    none. *)
Definition descriptor (s : KMoreToolsService) : option KService :=
  match installedService s with
  | Some k => Some k
  | None => kmtProvidedService s
  end.

(** Modelled from the spec: the value [formatString] of kmoretools.cpp
    puts for [$Name] (section 4.3, "name, then desktop-entry name, first
    non-empty wins"). *)
Definition nameOrDesktopEntryName (s : KMoreToolsService) : string :=
  let n := from_option name "" (descriptor s) in
  if isEmpty n then desktopEntryName s else n.

(** Modelled from the spec: the value [formatString] of kmoretools.cpp
    puts for [$GenericName] (section 4.3, "generic name, then name, then
    desktop-entry name, first non-empty wins"). *)
Definition genericNameOrName (s : KMoreToolsService) : string :=
  let g := from_option genericName "" (descriptor s) in
  if isEmpty g then nameOrDesktopEntryName s else g.

(** Modelled from the spec: [KMoreToolsService::formatString] of
    kmoretools.cpp, the substitution of the three placeholders declared
    in the header, each by its value. *)
Definition formatString (s : KMoreToolsService) (formatString : string) : string :=
  replace "$DesktopEntryName" (desktopEntryName s)
    (replace "$Name" (nameOrDesktopEntryName s)
       (replace "$GenericName" (genericNameOrName s) formatString)).

(** Modelled from the spec: what the system answers to a registration of
    kmoretools.cpp (sections 4.2 and 6): the installed desktop files, the
    bundled ones below a subdirectory, absent, malformed or valid, and the
    executables found. *)
Inductive KmtDesktopfile : Type :=
| KmtAbsent
| KmtFaulty
| KmtValid (k : KService).

Record System : Type := {
  serviceByDesktopName : string → option KService;
  kmtDesktopfileIn : string → string → KmtDesktopfile;
  findExecutable : string → bool
}.

(** [KMoreToolsMenuItem]: backed by a registered service or by an action
    of the caller (its address). *)
Record KMoreToolsMenuItem : Type := mkItem {
  id : string;
  registeredService : option KMoreToolsService;
  action : option nat;
  defaultLocation : MenuSection;
  initialItemText : string
}.

#[global] Instance KMoreToolsMenuItem_eq_dec : EqDecision KMoreToolsMenuItem.
Proof. solve_decision. Defined.

(** [KMoreToolsMenuBuilder], by the arguments of its constructor, the
    text template ("$GenericName" by default) and the items added. *)
Record KMoreToolsMenuBuilder : Type := mkBuilder {
  builderUniqueId : string;
  userConfigPostfix : string;
  initialItemTextTemplate : string;
  menuItems : list KMoreToolsMenuItem
}.

(** [KMoreTools]: its services in registration order, each with the
    address handed out for it, the builders by postfix, the builder
    objects by address, and the next free address. *)
Record t : Type := mk {
  uniqueId : string;
  serviceList : list (nat * KMoreToolsService);
  menuBuilderMap : gmap string nat;
  builders : gmap nat KMoreToolsMenuBuilder;
  nextAddr : nat
}.

(** [KMoreTools::KMoreTools(uniqueId)] *)
Definition create (uid : string) : t := mk uid [] ∅ ∅ 0.

(** Modelled from the spec: how a registration of kmoretools.cpp settles
    installed or not (section 4.2): by default by the presence of an installed desktop
    file; with exec-line probing by the presence of the executable named
    in the bundled file's run line. A malformed bundled file gives no
    result. *)
Definition locate (sys : System) (uid subdir entryName : string) (mode : ServiceLocatingMode)
  : option KMoreToolsService :=
  let dir := if isEmpty subdir then uid else subdir in
  match kmtDesktopfileIn sys dir entryName with
  | KmtFaulty => None
  | kmt =>
      let provided := match kmt with KmtValid k => Some k | _ => None end in
      match mode with
      | ServiceLocatingMode_Default =>
          let installed := serviceByDesktopName sys entryName in
          Some (mkService dir entryName (bool_decide (is_Some installed)) installed provided "")
      | ServiceLocatingMode_ByProvidedExecLine =>
          let found := match provided with
                       | Some k => findExecutable sys (exec k)
                       | None => false
                       end in
          Some (mkService dir entryName found None provided "")
      end
  end.

(** Modelled from the spec: the service list of kmoretools.cpp under a
    registration (testable property 2): the entry of [entryName] is
    replaced where it stands, or the new one is appended. *)
Fixpoint addOrReplace (entryName : string) (h : nat) (s : KMoreToolsService)
    (l : list (nat * KMoreToolsService)) : list (nat * KMoreToolsService) :=
  match l with
  | [] => [(h, s)]
  | (h', s') :: l' =>
      if bool_decide (desktopEntryName s' = entryName) then (h, s) :: l'
      else (h', s') :: addOrReplace entryName h s l'
  end.

(** Modelled from the spec: [KMoreTools::registerServiceByDesktopEntryName]
    of kmoretools.cpp (section 4.2 and testable property 2): the service
    is located again, a new handle is returned for it and takes the place
    of the handle the name had; a malformed bundled file returns null and
    registers nothing. *)
Definition registerServiceByDesktopEntryName (sys : System) (entryName subdir : string)
    (mode : ServiceLocatingMode) (k : t) : option nat * t :=
  match locate sys (uniqueId k) subdir entryName mode with
  | Some s =>
      let h := nextAddr k in
      (Some h, mk (uniqueId k) (addOrReplace entryName h s (serviceList k))
                 (menuBuilderMap k) (builders k) (S h))
  | None => (None, k)
  end.

(** Modelled from the spec: [KMoreTools::menuBuilder] of kmoretools.cpp
    (section 4.2 and the header): one builder per postfix, made at the
    first call for it and returned by every later one. *)
Definition menuBuilder (postfix : string) (k : t) : nat * t :=
  match menuBuilderMap k !! postfix with
  | Some b => (b, k)
  | None =>
      let b := nextAddr k in
      (b, mk (uniqueId k) (serviceList k) (<[postfix := b]> (menuBuilderMap k))
            (<[b := mkBuilder (uniqueId k) postfix "$GenericName" []]> (builders k)) (S b))
  end.

(** Modelled from the spec: the identifier kmoretools.cpp gives a new
    item (section 3,
    "collisions are disambiguated by suffixing"): the wanted one if it is
    free, else the first free one among the wanted one with a counter
    appended. *)
Definition findUniqueId (items : list KMoreToolsMenuItem) (desired : string) : string :=
  let taken s := bool_decide (s ∈ id <$> items) in
  if taken desired then
    default desired
      (head (filter (λ s, taken s = false)
               ((λ n : nat, desired +:+ ":" +:+ pretty n) <$> seq 0 (S (length items)))))
  else desired.

Definition withItems (l : list KMoreToolsMenuItem) (b : KMoreToolsMenuBuilder)
  : KMoreToolsMenuBuilder :=
  mkBuilder (builderUniqueId b) (userConfigPostfix b) (initialItemTextTemplate b) l.

(** Modelled from the spec: [KMoreToolsMenuBuilder::addMenuItem] of
    kmoretools.cpp for a registered service (section 4.4 and the header): the item gets an
    identifier made from the desktop-entry name, the section asked for
    and the text of the builder's template; it is added after the items
    there are. *)
Definition addMenuItem (s : KMoreToolsService) (defaultLocation : MenuSection)
    (b : KMoreToolsMenuBuilder) : KMoreToolsMenuItem * KMoreToolsMenuBuilder :=
  let item := mkItem (findUniqueId (menuItems b) (desktopEntryName s)) (Some s) None
                defaultLocation (formatString s (initialItemTextTemplate b)) in
  (item, withItems (menuItems b ++ [item]) b).

(** Modelled from the spec: [KMoreToolsMenuBuilder::addMenuItem] of
    kmoretools.cpp for an action of the caller, with the identifier the
    caller gives. *)
Definition addMenuItemAction (a : nat) (itemId : string) (defaultLocation : MenuSection)
    (b : KMoreToolsMenuBuilder) : KMoreToolsMenuItem * KMoreToolsMenuBuilder :=
  let item := mkItem (findUniqueId (menuItems b) itemId) None (Some a) defaultLocation "" in
  (item, withItems (menuItems b ++ [item]) b).

(** Modelled from the spec: [KMoreToolsMenuBuilder::clear] of
    kmoretools.cpp, which discards the items and keeps the builder. *)
Definition clear (b : KMoreToolsMenuBuilder) : KMoreToolsMenuBuilder := withItems [] b.

(** An item of a registered service that is not installed. *)
Definition notInstalled (i : KMoreToolsMenuItem) : bool :=
  match registeredService i with
  | Some s => negb (isInstalled s)
  | None => false
  end.

(** Modelled from the spec: the section kmoretools.cpp gives an item at
    build time (sections 4.4 and 6): the one the persisted user configuration
    records for the item's identifier, else its default one. *)
Definition sectionOf (userConfig : gmap string MenuSection) (i : KMoreToolsMenuItem)
  : MenuSection :=
  default (defaultLocation i) (userConfig !! id i).

(** What a build appends to the menu: the actions of the main section,
    the "More" submenu if it has anything to show, with its actions and
    its "Not installed" subsection, and whether "Configure..." is there. *)
Record MoreMenu : Type := mkMoreMenu {
  moreActions : list KMoreToolsMenuItem;
  notInstalledSection : list KMoreToolsMenuItem
}.

Record BuiltMenu : Type := mkBuiltMenu {
  mainActions : list KMoreToolsMenuItem;
  moreMenu : option MoreMenu;
  configureEntry : bool
}.

(** Modelled from the spec: [KMoreToolsMenuBuilder::buildByAppendingToMenu]
    of kmoretools.cpp (section 4.4): items of the main section are
    appended directly, items of the more section go under "More", and the
    items of services that are not installed go to the "Not installed"
    subsection at the end of "More" whatever their section;
    "Configure..." is shown always or, defensively, only when a service
    is not installed. *)
Definition buildByAppendingToMenu (userConfig : gmap string MenuSection)
    (setting : ConfigureDialogAccessibleSetting) (b : KMoreToolsMenuBuilder) : BuiltMenu :=
  let usable := filter (λ i, notInstalled i = false) (menuItems b) in
  let missing := filter (λ i, notInstalled i = true) (menuItems b) in
  let main := filter (λ i, sectionOf userConfig i = MenuSection_Main) usable in
  let more := filter (λ i, sectionOf userConfig i = MenuSection_More) usable in
  mkBuiltMenu main
    (match more, missing with
     | [], [] => None
     | _, _ => Some (mkMoreMenu more missing)
     end)
    (match setting with
     | ConfigureDialogAccessible_Always => true
     | ConfigureDialogAccessible_Defensive => bool_decide (missing ≠ [])
     end).

(** The requests a [KMoreTools] object serves. *)
Inductive Request : Type :=
| Register (sys : System) (entryName subdir : string) (mode : ServiceLocatingMode)
| MenuBuilder (postfix : string).

Definition serve (c : Request) (k : t) : t :=
  match c with
  | Register sys entryName subdir mode =>
      (registerServiceByDesktopEntryName sys entryName subdir mode k).2
  | MenuBuilder postfix => (menuBuilder postfix k).2
  end.

Definition serveAll (cs : list Request) (k : t) : t := foldl (λ k c, serve c k) k cs.

(** *** Notions the statements below are written with *)

(** The desktop-entry names of the registered services, in order. *)
Definition namesOf (l : list (nat * KMoreToolsService)) : list string :=
  (λ e, desktopEntryName e.2) <$> l.

Definition serviceNames (k : t) : list string := namesOf (serviceList k).

(** Every builder of the map is an object made before now, no builder is
    kept under two postfixes, and so are the handles of the services, with
    one service per desktop-entry name. *)
Definition wf (k : t) : Prop :=
  (∀ p b, menuBuilderMap k !! p = Some b → b < nextAddr k ∧ is_Some (builders k !! b)) ∧
  (∀ p1 p2 b, menuBuilderMap k !! p1 = Some b → menuBuilderMap k !! p2 = Some b → p1 = p2) ∧
  (∀ h s, (h, s) ∈ serviceList k → h < nextAddr k) ∧
  NoDup (serviceNames k).

(** What a request leaves in place: the builders of the map and their
    objects, and the order of addresses. *)
Definition extends (k k' : t) : Prop :=
  uniqueId k' = uniqueId k ∧
  (nextAddr k ≤ nextAddr k')%nat ∧
  (∀ p b, menuBuilderMap k !! p = Some b → menuBuilderMap k' !! p = Some b) ∧
  (∀ b, b < nextAddr k → is_Some (builders k !! b) → is_Some (builders k' !! b)).

(** The handle [h] was handed out for the desktop-entry name [n]. *)
Definition handle_of (h : nat) (n : string) (k : t) : Prop :=
  h < nextAddr k ∧ ∀ s, (h, s) ∈ serviceList k → desktopEntryName s = n.




End KMoreTools.

(** ** Concrete objects, for the statements at explicit inputs *)
Module Examples.

Definition store : KNSCore.Provider.t := KNSCore.Provider.mk 1 "api.kde-look.org".

(** One quick engine whose core engine knows [store] by its id and as
    its default provider. *)
Definition world : Author.World := {|
  Author.Engine_engine := λ _, Some (Author.CoreEngine 5);
  Author.Engine_provider := λ _ s,
    if bool_decide (s = "api.kde-look.org") then Some store else None;
  Author.Engine_defaultProvider := λ _, Some store
|}.

Definition leinir : KNSCore.Author.t :=
  KNSCore.Author.mk "leinir" "Dan Leinir Turthra Jensen" "Maintainer"
    "https://leinir.dk" "https://store.kde.org/u/leinir" "https://store.kde.org/avatar/leinir".

(** The same person with the description changed at the provider. *)
Definition leinir_updated : KNSCore.Author.t :=
  KNSCore.Author.mk "leinir" "Dan Leinir Turthra Jensen" "KNewStuff maintainer"
    "https://leinir.dk" "https://store.kde.org/u/leinir" "https://store.kde.org/avatar/leinir".

(** A record that carries no display name. *)
Definition nameless : KNSCore.Author.t :=
  KNSCore.Author.mk "leinir" "" "" "" "" "".

(** The calls that set an adapter up for the user [leinir]. *)
Definition setup : list (Author.World * Author.Call) :=
  [(world, Author.CallSetEngine (Some (Author.QuickEngine 3)));
   (world, Author.CallSetProviderId "api.kde-look.org");
   (world, Author.CallSetUsername "leinir");
   (world, Author.CallComponentComplete)].

(** The adapter after [setup], from an empty hash: connected to [store],
    the lookup of [leinir] requested. *)
Definition connected : Author.State :=
  Author.mkState
    (Author.mkPrivate true (Some 3) "api.kde-look.org" "leinir" (Some store))
    ∅ [store]
    [Author.EngineChanged; Author.DataChanged; Author.ProviderIdChanged; Author.DataChanged;
     Author.UsernameChanged; Author.DataChanged; Author.LoadPerson store "leinir"].

(** [connected] once [store] has delivered [leinir]. *)
Definition loaded : Author.State :=
  Author.mkState (Author.d connected)
    (<[Author.authorKey arg12 "api.kde-look.org" "leinir" := leinir]> ∅)
    [store] (Author.trace connected ++ [Author.DataChanged]).

(** Calls before the component is complete. *)
Definition early : list (Author.World * Author.Call) :=
  [(world, Author.CallSetEngine (Some (Author.QuickEngine 3)));
   (world, Author.CallSetUsername "leinir");
   (world, Author.CallName);
   (world, Author.SignalPersonLoaded store leinir)].

(** A system with Kate installed and a bundled desktop file for gitk,
    which is not installed. *)
Definition system : KMoreTools.System := {|
  KMoreTools.serviceByDesktopName := λ n,
    if bool_decide (n = "kate")
    then Some (KMoreTools.mkKService "Text Editor" "Kate" "kate" "kate %U")
    else None;
  KMoreTools.kmtDesktopfileIn := λ _ n,
    if bool_decide (n = "gitk")
    then KMoreTools.KmtValid (KMoreTools.mkKService "" "Gitk" "gitk" "gitk")
    else KMoreTools.KmtAbsent;
  KMoreTools.findExecutable := λ _, false
|}.

Definition gitk : KMoreTools.KMoreToolsService :=
  KMoreTools.mkService "kate/git-tools" "gitk" false None
    (Some (KMoreTools.mkKService "" "Gitk" "gitk" "gitk")) "".



Definition gitkItem : KMoreTools.KMoreToolsMenuItem :=
  KMoreTools.mkItem "gitk" (Some gitk) None KMoreTools.MenuSection_Main "Gitk".

Definition builder : KMoreTools.KMoreToolsMenuBuilder :=
  KMoreTools.mkBuilder "kate/git-tools" "" "$GenericName" [gitkItem].

(** A second provider, and the engines once they know it. *)
Definition mirror : KNSCore.Provider.t := KNSCore.Provider.mk 2 "mirror.kde.org".

Definition world_with_mirror : Author.World := {|
  Author.Engine_engine := λ _, Some (Author.CoreEngine 5);
  Author.Engine_provider := λ _ s,
    if bool_decide (s = "api.kde-look.org") then Some store
    else if bool_decide (s = "mirror.kde.org") then Some mirror else None;
  Author.Engine_defaultProvider := λ _, Some store
|}.

(** The record of another user of [store]. *)
Definition ahiemstra : KNSCore.Author.t :=
  KNSCore.Author.mk "ahiemstra" "Arjen Hiemstra" "" "" "" "".

(** The adapter in [componentComplete()], the flag set and
    [resetConnections] about to run. *)
Definition completing : Author.State :=
  Author.mkState
    (Author.mkPrivate true (Some 3) "api.kde-look.org" "leinir" None) ∅ [] [].

(** An adapter that holds [store] and has no username, with a record in
    the hash under the key of the empty name. *)
Definition anonymous : Author.State :=
  Author.mkState
    (Author.mkPrivate true (Some 3) "api.kde-look.org" "" (Some store))
    (<[Author.authorKey arg12 "api.kde-look.org" "" := nameless]> ∅) [store] [].

(** Two reads of properties. *)
Definition reads : list (Author.World * Author.Call) :=
  [(world, Author.CallName); (world, Author.CallDescription)].

End Examples.

(** * Properties *)

Lemma isEmpty_true s : isEmpty s = true ↔ s = "".
Proof. unfold isEmpty. apply bool_decide_eq_true. Qed.

Lemma isEmpty_false s : isEmpty s = false ↔ s ≠ "".
Proof. unfold isEmpty. apply bool_decide_eq_false. Qed.

(** ** The Author adapter *)

Ltac unfold_M :=
  unfold mbind, Author.M_bind, mret, Author.M_ret, Author.nullDeref, Author.getD,
    Author.putD, Author.getAllAuthors, Author.putAllAuthors, Author.getConnections,
    Author.putConnections, Author.send in *.

Section AuthorFacts.
Import Author.
Variable arg : string → string → string.
Implicit Types (σ : State) (w : World) (p : KNSCore.Provider.t) (a : KNSCore.Author.t).

Lemma author_unfold σ :
  author arg σ =
    match provider (d σ) with
    | Some p =>
        if isEmpty (username (d σ)) then Some (None, σ)
        else match allAuthors σ !! authorKey arg (KNSCore.Provider.id p) (username (d σ)) with
             | Some a => Some (Some a, σ)
             | None => Some (None, logged [LoadPerson p (username (d σ))] σ)
             end
    | None => Some (None, σ)
    end.
Proof.
  unfold author. unfold_M. cbn.
  destruct (provider (d σ)); [|done].
  destruct (isEmpty _); [done|]. cbn.
  by destruct (allAuthors σ !! _).
Qed.

Lemma resetConnections_not_completed w σ :
  componentCompleted (d σ) = false → resetConnections arg w σ = Some (tt, σ).
Proof. intros H. unfold resetConnections. unfold_M. cbn. by rewrite H. Qed.

Lemma resetConnections_completed w σ :
  componentCompleted (d σ) = true →
  resetConnections arg w σ =
    match resolvedProvider w (d σ) with
    | None => None
    | Some None =>
        Some (tt, mkState (setProviderField None (d σ)) (allAuthors σ) (disconnected σ) (trace σ))
    | Some (Some p) =>
        match author arg (mkState (setProviderField (Some p) (d σ)) (allAuthors σ)
                            (disconnected σ ++ [p]) (trace σ)) with
        | Some (_, σ') => Some (tt, σ')
        | None => None
        end
    end.
Proof.
  intros H. destruct σ as [[cc e pid u p] c l t]. cbn in H. subst cc.
  unfold resetConnections, resolvedProvider, disconnected, disconnect, connect. unfold_M. cbn.
  destruct p as [p|], e as [e|]; cbn;
    try destruct (Engine_engine w e) as [[ | ce | ]|]; cbn;
    try destruct (Engine_provider w ce pid); cbn;
    try destruct (Engine_defaultProvider w ce); cbn;
    try reflexivity;
    try (destruct (author _ _) as [[? ?]|]; reflexivity).
Qed.

Lemma author_frame σ r σ' :
  author arg σ = Some (r, σ') →
  d σ' = d σ ∧ allAuthors σ' = allAuthors σ ∧ connections σ' = connections σ.
Proof.
  rewrite author_unfold. intros H.
  repeat case_match; simplify_eq; done.
Qed.

Lemma author_total σ : is_Some (author arg σ).
Proof. rewrite author_unfold. repeat case_match; eauto. Qed.

Lemma resetConnections_frame w σ σ' :
  resetConnections arg w σ = Some (tt, σ') →
  componentCompleted (d σ') = componentCompleted (d σ) ∧
  engine (d σ') = engine (d σ) ∧
  providerId (d σ') = providerId (d σ) ∧
  username (d σ') = username (d σ) ∧
  allAuthors σ' = allAuthors σ.
Proof.
  destruct (componentCompleted (d σ)) eqn:Hc.
  - rewrite resetConnections_completed by done.
    destruct (resolvedProvider w (d σ)) as [[p|]|]; [|by intros [= <-]|done].
    destruct (author _ _) as [[r σ1]|] eqn:Ha; [|done].
    intros [= <-]. apply author_frame in Ha as (-> & -> & _). cbn. done.
  - rewrite resetConnections_not_completed by done. by intros [= <-].
Qed.

Lemma resolvedProvider_total w x : engines_are_core w → is_Some (resolvedProvider w x).
Proof.
  intros Hw. unfold resolvedProvider.
  destruct (engine x) as [e|]; [|eauto].
  destruct (Engine_engine w e) as [o|] eqn:Ho; [|eauto].
  destruct (Hw _ _ Ho) as [ce ->]. eauto.
Qed.

Lemma resetConnections_total w σ :
  engines_are_core w → ∃ σ', resetConnections arg w σ = Some (tt, σ').
Proof.
  intros Hw. destruct (componentCompleted (d σ)) eqn:Hc.
  - rewrite resetConnections_completed by done.
    destruct (resolvedProvider_total w (d σ) Hw) as [[p|] ->]; [|eauto].
    destruct (author_total (mkState (setProviderField (Some p) (d σ)) (allAuthors σ)
                              (disconnected σ ++ [p]) (trace σ))) as [[r σ1] ->].
    eauto.
  - rewrite resetConnections_not_completed by done. eauto.
Qed.

Lemma filter_ne_singleton p : filter (λ c, c ≠ p) [p] = [].
Proof. cbn. by rewrite decide_False by naive_solver. Qed.

Lemma resetConnections_inv w σ σ' :
  inv σ → resetConnections arg w σ = Some (tt, σ') → inv σ'.
Proof.
  intros [Hi1 Hi2]. destruct (componentCompleted (d σ)) eqn:Hc.
  - rewrite resetConnections_completed by done.
    assert (disconnected σ = []) as Hd.
    { unfold disconnected. rewrite Hi1. destruct (provider (d σ)); [|done].
      apply filter_ne_singleton. }
    rewrite Hd.
    destruct (resolvedProvider w (d σ)) as [[p|]|]; [| |done].
    + destruct (author _ _) as [[r σ1]|] eqn:Ha; [|done].
      intros [= <-]. apply author_frame in Ha as (Hd1 & _ & Hc1).
      unfold inv. rewrite Hd1, Hc1. cbn. rewrite Hc. by split.
    + intros [= <-]. split; [done|]. cbn. by rewrite Hc.
  - rewrite resetConnections_not_completed by done. intros [= <-]. split; auto.
Qed.

Lemma logged_inv e σ : inv σ → inv (logged e σ).
Proof. done. Qed.

Lemma deliver_unfold n a σ :
  deliver arg n a σ =
    match n with
    | 0 => Some (tt, σ)
    | S _ =>
        match provider (d σ) with
        | Some p =>
            Some (tt, mkState (d σ)
                        (<[authorKey arg (KNSCore.Provider.id p) (KNSCore.Author.id a) := a]>
                           (allAuthors σ))
                        (connections σ)
                        (trace σ ++ replicate n DataChanged))
        | None => None
        end
    end.
Proof.
  revert σ. induction n as [|n IH]; intros σ; [done|].
  cbn [deliver]. unfold personLoaded_slot, emit_dataChanged. unfold_M. cbn.
  destruct (provider (d σ)) as [p|] eqn:Hp; [|done].
  rewrite IH. destruct n as [|n]; [done|]. cbn. rewrite Hp.
  rewrite insert_insert_eq. by rewrite <- app_assoc.
Qed.

Lemma personLoaded_connected σ p a :
  connected_to σ p →
  personLoaded arg p a σ =
    Some (tt, mkState (d σ)
                (<[authorKey arg (KNSCore.Provider.id p) (KNSCore.Author.id a) := a]>
                   (allAuthors σ))
                (connections σ) (trace σ ++ [DataChanged])).
Proof.
  intros [Hp Hc]. unfold personLoaded. unfold_M. cbn. rewrite Hc. cbn.
  rewrite decide_True by done. cbn [length]. rewrite deliver_unfold. by rewrite Hp, Hc.
Qed.

Lemma personLoaded_frame sender a σ σ' :
  personLoaded arg sender a σ = Some (tt, σ') →
  d σ' = d σ ∧ connections σ' = connections σ ∧
  (allAuthors σ' = allAuthors σ ∨
   ∃ p, provider (d σ) = Some p ∧
        allAuthors σ' =
          <[authorKey arg (KNSCore.Provider.id p) (KNSCore.Author.id a) := a]> (allAuthors σ)).
Proof.
  unfold personLoaded. unfold_M. cbn. rewrite deliver_unfold.
  destruct (length _); [intros [= <-]; auto|].
  destruct (provider (d σ)) as [p|]; [|done].
  intros [= <-]. cbn. eauto 6.
Qed.

Lemma setEngine_unfold w o σ :
  setEngine arg w o σ =
    if bool_decide (as_QObject (engine (d σ)) ≠ o) then
      then_emit [EngineChanged; DataChanged]
        (resetConnections arg w (with_d (setEngineField (qobject_cast_Engine o) (d σ)) σ))
    else Some (tt, σ).
Proof.
  unfold setEngine, emit_engineChanged, emit_dataChanged, then_emit, logged, with_d.
  unfold_M. cbn. case_bool_decide; [|done].
  destruct (resetConnections _ _ _) as [[[] σ1]|]; [|done].
  cbn. by rewrite <- app_assoc.
Qed.

Lemma setProviderId_unfold w s σ :
  setProviderId arg w s σ =
    if bool_decide (providerId (d σ) ≠ s) then
      then_emit [ProviderIdChanged; DataChanged]
        (resetConnections arg w (with_d (setProviderIdField s (d σ)) σ))
    else Some (tt, σ).
Proof.
  unfold setProviderId, emit_providerIdChanged, emit_dataChanged, then_emit, logged, with_d.
  unfold_M. cbn. case_bool_decide; [|done].
  destruct (resetConnections _ _ _) as [[[] σ1]|]; [|done].
  cbn. by rewrite <- app_assoc.
Qed.

Lemma setUsername_unfold w s σ :
  setUsername arg w s σ =
    if bool_decide (username (d σ) ≠ s) then
      then_emit [UsernameChanged; DataChanged]
        (resetConnections arg w (with_d (setUsernameField s (d σ)) σ))
    else Some (tt, σ).
Proof.
  unfold setUsername, emit_usernameChanged, emit_dataChanged, then_emit, logged, with_d.
  unfold_M. cbn. case_bool_decide; [|done].
  destruct (resetConnections _ _ _) as [[[] σ1]|]; [|done].
  cbn. by rewrite <- app_assoc.
Qed.

Lemma componentComplete_unfold w σ :
  componentComplete arg w σ =
    resetConnections arg w (with_d (setComponentCompleted true (d σ)) σ).
Proof. done. Qed.

Lemma accessor_unfold {A} (f : option KNSCore.Author.t → M A) σ :
  (author arg ≫= f) σ =
    match author arg σ with
    | Some (r, σ1) => f r σ1
    | None => None
    end.
Proof. done. Qed.

Lemma then_emit_Some e r σ' :
  then_emit e r = Some (tt, σ') ↔ ∃ σ1, r = Some (tt, σ1) ∧ σ' = logged e σ1.
Proof.
  unfold then_emit. split.
  - destruct r as [[[] σ1]|]; [|done]. intros [= <-]. eauto.
  - intros (σ1 & -> & ->). done.
Qed.

Lemma with_d_inv x σ :
  provider x = provider (d σ) →
  (componentCompleted (d σ) = true → componentCompleted x = true) →
  inv σ → inv (with_d x σ).
Proof.
  intros Hp Hc [Hi1 Hi2]. split; cbn.
  - by rewrite Hp.
  - rewrite Hp. intros Hf. apply Hi2.
    destruct (componentCompleted (d σ)); [|done]. rewrite Hc in Hf; done.
Qed.

Lemma author_inv σ r σ' : inv σ → author arg σ = Some (r, σ') → inv σ'.
Proof.
  intros Hi Ha. apply author_frame in Ha as (Hd & _ & Hc).
  unfold inv. by rewrite Hd, Hc.
Qed.

Lemma name_unfold σ :
  name arg σ =
    match author arg σ with
    | Some (Some r, σ1) =>
        Some (if negb (isEmpty (KNSCore.Author.name r)) then KNSCore.Author.name r
              else username (d σ1), σ1)
    | Some (None, σ1) => Some (username (d σ1), σ1)
    | None => None
    end.
Proof.
  unfold name. rewrite accessor_unfold.
  destruct (author arg σ) as [[[r|] σ1]|]; [|done..].
  by destruct (negb _).
Qed.

Lemma getter_unfold (get : KNSCore.Author.t → string) σ :
  (a ← author arg; match a with Some r => mret (get r) | None => mret "" end) σ =
    match author arg σ with
    | Some (Some r, σ1) => Some (get r, σ1)
    | Some (None, σ1) => Some ("", σ1)
    | None => None
    end.
Proof.
  rewrite accessor_unfold. by destruct (author arg σ) as [[[r|] σ1]|].
Qed.

Lemma accessor_run {A} (m : M A) σ σ' :
  (∀ v σ1, m σ = Some (v, σ1) → ∃ r, author arg σ = Some (r, σ1)) →
  (m;; mret tt) σ = Some (tt, σ') → ∃ r, author arg σ = Some (r, σ').
Proof.
  intros Hm. unfold_M. destruct (m σ) as [[v σ1]|] eqn:E; [|done].
  intros [= <-]. eauto.
Qed.

Lemma name_author v σ σ1 : name arg σ = Some (v, σ1) → ∃ r, author arg σ = Some (r, σ1).
Proof.
  rewrite name_unfold. destruct (author arg σ) as [[[r|] σ2]|]; [| |done];
    intros [= _ <-]; eauto.
Qed.

Lemma getter_author get v σ σ1 :
  (a ← author arg; match a with Some r => mret (get r) | None => mret "" end) σ = Some (v, σ1) →
  ∃ r, author arg σ = Some (r, σ1).
Proof.
  rewrite getter_unfold. destruct (author arg σ) as [[[r|] σ2]|]; [| |done];
    intros [= _ <-]; eauto.
Qed.

(** Reading a property leaves the state as [author()] leaves it. *)
Lemma read_run w c σ σ' :
  c ∈ [CallName; CallDescription; CallHomepage; CallProfilepage; CallAvatarUrl] →
  run arg w c σ = Some (tt, σ') → ∃ r, author arg σ = Some (r, σ').
Proof.
  rewrite !elem_of_cons, elem_of_nil.
  intros [->|[->|[->|[->|[->|[]]]]]]; cbn [run]; apply accessor_run; intros v σ1.
  - apply name_author.
  - apply (getter_author KNSCore.Author.description).
  - apply (getter_author KNSCore.Author.homepage).
  - apply (getter_author KNSCore.Author.profilepage).
  - apply (getter_author KNSCore.Author.avatarUrl).
Qed.

Lemma run_inv w c σ σ' : inv σ → run arg w c σ = Some (tt, σ') → inv σ'.
Proof.
  intros Hi.
  destruct c;
    try (intros [r Ha]%read_run; [by eapply author_inv|set_solver]); cbn [run].
  - rewrite componentComplete_unfold. apply resetConnections_inv.
    apply with_d_inv; done.
  - rewrite setEngine_unfold. case_bool_decide; [|by intros [= <-]].
    intros (σ1 & Hr & ->)%then_emit_Some. apply logged_inv.
    eapply resetConnections_inv; [|done]. apply with_d_inv; done.
  - rewrite setProviderId_unfold. case_bool_decide; [|by intros [= <-]].
    intros (σ1 & Hr & ->)%then_emit_Some. apply logged_inv.
    eapply resetConnections_inv; [|done]. apply with_d_inv; done.
  - rewrite setUsername_unfold. case_bool_decide; [|by intros [= <-]].
    intros (σ1 & Hr & ->)%then_emit_Some. apply logged_inv.
    eapply resetConnections_inv; [|done]. apply with_d_inv; done.
  - intros (Hd & Hc & _)%personLoaded_frame. unfold inv. by rewrite Hd, Hc.
Qed.

Lemma reachable_inv σ : reachable arg σ → inv σ.
Proof.
  induction 1 as [cache|w c σ σ' _ IH Hr|p a σ _ IH]; [done| |done].
  by eapply run_inv.
Qed.

Lemma reachable_connected σ p :
  reachable arg σ → provider (d σ) = Some p → connected_to σ p.
Proof.
  intros [Hi _]%reachable_inv Hp. split; [done|]. by rewrite Hi, Hp.
Qed.

Lemma author_None σ :
  (∀ p, provider (d σ) = Some p →
        allAuthors σ !! authorKey arg (KNSCore.Provider.id p) (username (d σ)) = None) →
  ∃ σ', author arg σ = Some (None, σ') ∧ d σ' = d σ.
Proof.
  intros H. rewrite author_unfold.
  destruct (provider (d σ)) as [p|]; [|eauto].
  destruct (isEmpty _); [eauto|].
  rewrite (H p eq_refl). eauto.
Qed.

(** C1: with a provider [p], a non-empty username [u] and no record under
    the key of [(p, u)] in the shared hash, reading any property sends
    exactly one [loadPerson(u)] to [p] and returns the fallback at once:
    [name()] the raw username, the others the empty string. *)
Theorem property_read_on_cache_miss σ p u :
  provider (d σ) = Some p →
  username (d σ) = u →
  u ≠ "" →
  allAuthors σ !! authorKey arg (KNSCore.Provider.id p) u = None →
  let σ' := logged [LoadPerson p u] σ in
  name arg σ = Some (u, σ') ∧
  description arg σ = Some ("", σ') ∧
  homepage arg σ = Some ("", σ') ∧
  profilepage arg σ = Some ("", σ') ∧
  avatarUrl arg σ = Some ("", σ').
Proof.
  intros Hp Hu Hne Hmiss σ'.
  assert (author arg σ = Some (None, σ')) as Ha.
  { rewrite author_unfold, Hp, Hu.
    apply isEmpty_false in Hne. by rewrite Hne, Hmiss. }
  unfold description, homepage, profilepage, avatarUrl.
  rewrite name_unfold, !getter_unfold, Ha. cbn. by rewrite Hu.
Qed.

(** C4: while no record is cached for the current provider and username,
    every accessor returns its fallback and none fails: [name()] the raw
    username, [description()], [homepage()] and [profilepage()] the empty
    string, [avatarUrl()] the empty URL. *)
Theorem accessors_fall_back_when_unresolved σ :
  (∀ p, provider (d σ) = Some p →
        allAuthors σ !! authorKey arg (KNSCore.Provider.id p) (username (d σ)) = None) →
  ∃ σ',
    name arg σ = Some (username (d σ), σ') ∧
    description arg σ = Some ("", σ') ∧
    homepage arg σ = Some ("", σ') ∧
    profilepage arg σ = Some ("", σ') ∧
    avatarUrl arg σ = Some ("", σ').
Proof.
  intros H. destruct (author_None σ H) as (σ' & Ha & Hd). exists σ'.
  unfold description, homepage, profilepage, avatarUrl.
  rewrite name_unfold, !getter_unfold, Ha, Hd. done.
Qed.

(** C2, amended: for an adapter in a running process that holds the
    provider [p], when [personLoaded] arrives from [p] with the record of
    the username looked up, the record is stored under the key of provider
    id and username, [dataChanged] is emitted once, the next lookup finds
    the record without a new request, and [name()] is the record's display
    name if that is not empty and the raw username if it is. *)
Theorem personLoaded_then_name σ p a u :
  reachable arg σ →
  provider (d σ) = Some p →
  username (d σ) = u →
  u ≠ "" →
  KNSCore.Author.id a = u →
  let σ' := mkState (d σ) (<[authorKey arg (KNSCore.Provider.id p) u := a]> (allAuthors σ))
              (connections σ) (trace σ ++ [DataChanged]) in
  personLoaded arg p a σ = Some (tt, σ') ∧
  author arg σ' = Some (Some a, σ') ∧
  name arg σ' =
    Some (if isEmpty (KNSCore.Author.name a) then u else KNSCore.Author.name a, σ').
Proof.
  intros Hreach Hp Hu Hne Hid σ'.
  pose proof (reachable_connected σ p Hreach Hp) as Hc.
  assert (author arg σ' = Some (Some a, σ')) as Ha.
  { rewrite author_unfold. cbn. rewrite Hp, Hu.
    apply isEmpty_false in Hne. rewrite Hne. by rewrite lookup_insert_eq. }
  split; [|split; [done|]].
  - rewrite (personLoaded_connected σ p a Hc). by rewrite Hid.
  - rewrite name_unfold, Ha. cbn. rewrite Hu. by destruct (isEmpty _).
Qed.

(** C3, amended: a call either leaves the shared hash as it was or, when
    it is [personLoaded] reaching the slot, inserts the loaded record
    under the key of provider id and record id, replacing the record the
    key may have held; no call removes a key. *)
Theorem cache_changes_by_insert_only w c σ σ' :
  run arg w c σ = Some (tt, σ') →
  (allAuthors σ' = allAuthors σ ∨
   ∃ sender p a,
     c = SignalPersonLoaded sender a ∧ provider (d σ) = Some p ∧
     allAuthors σ' =
       <[authorKey arg (KNSCore.Provider.id p) (KNSCore.Author.id a) := a]> (allAuthors σ)) ∧
  dom (allAuthors σ) ⊆ dom (allAuthors σ').
Proof.
  intros Hr.
  assert (allAuthors σ' = allAuthors σ ∨
   ∃ sender p a,
     c = SignalPersonLoaded sender a ∧ provider (d σ) = Some p ∧
     allAuthors σ' =
       <[authorKey arg (KNSCore.Provider.id p) (KNSCore.Author.id a) := a]> (allAuthors σ))
    as Hcase.
  { revert Hr. destruct c;
      try (intros [r (_ & Ha & _)%author_frame]%read_run; [by left|set_solver]);
      cbn [run].
    - rewrite componentComplete_unfold. intros (_ & _ & _ & _ & ->)%resetConnections_frame.
      by left.
    - rewrite setEngine_unfold. case_bool_decide; [|intros [= <-]; by left].
      intros (σ1 & (_ & _ & _ & _ & Hr)%resetConnections_frame & ->)%then_emit_Some.
      by left.
    - rewrite setProviderId_unfold. case_bool_decide; [|intros [= <-]; by left].
      intros (σ1 & (_ & _ & _ & _ & Hr)%resetConnections_frame & ->)%then_emit_Some.
      by left.
    - rewrite setUsername_unfold. case_bool_decide; [|intros [= <-]; by left].
      intros (σ1 & (_ & _ & _ & _ & Hr)%resetConnections_frame & ->)%then_emit_Some.
      by left.
    - intros (_ & _ & [->|(p & Hp & ->)])%personLoaded_frame; [by left|].
      right. eauto 6. }
  split; [done|].
  destruct Hcase as [->|(? & ? & ? & _ & _ & ->)]; [done|].
  rewrite dom_insert. set_solver.
Qed.

Lemma dormant_stored f e σ :
  (∀ x, componentCompleted (f x) = componentCompleted x) →
  (∀ x, provider (f x) = provider x) →
  (∀ p u, LoadPerson p u ∉ e) →
  dormant σ → dormant (logged e (with_d (f (d σ)) σ)).
Proof.
  intros Hc Hp He (H1 & H2 & H3 & H4). repeat split; cbn.
  - by rewrite Hc.
  - by rewrite Hp.
  - done.
  - intros p u [?|?]%elem_of_app; [by eapply H4|by eapply He].
Qed.

Lemma signals_no_request (e : Event) p u :
  e ∈ [EngineChanged; ProviderIdChanged; UsernameChanged] →
  LoadPerson p u ∉ [e; DataChanged].
Proof.
  rewrite !elem_of_cons, !elem_of_nil.
  intros [->|[->|[->|[]]]] [?|[?|[]]]; discriminate.
Qed.

Lemma author_dormant σ : provider (d σ) = None → author arg σ = Some (None, σ).
Proof. intros H. by rewrite author_unfold, H. Qed.

Lemma run_dormant w c σ :
  dormant σ → c ≠ CallComponentComplete →
  ∃ σ', run arg w c σ = Some (tt, σ') ∧ dormant σ'.
Proof.
  intros Hd Hc. pose proof Hd as (H1 & H2 & H3 & H4).
  destruct c; [done|..]; cbn [run].
  - rewrite setEngine_unfold. case_bool_decide; [|eauto].
    rewrite resetConnections_not_completed by done. eexists; split; [done|].
    apply (dormant_stored (setEngineField _)); [done..| |done].
    intros p u. apply signals_no_request. set_solver.
  - rewrite setProviderId_unfold. case_bool_decide; [|eauto].
    rewrite resetConnections_not_completed by done. eexists; split; [done|].
    apply (dormant_stored (setProviderIdField _)); [done..| |done].
    intros p u. apply signals_no_request. set_solver.
  - rewrite setUsername_unfold. case_bool_decide; [|eauto].
    rewrite resetConnections_not_completed by done. eexists; split; [done|].
    apply (dormant_stored (setUsernameField _)); [done..| |done].
    intros p u. apply signals_no_request. set_solver.
  - exists σ. split; [|done]. unfold name. unfold_M. by rewrite author_dormant.
  - exists σ. split; [|done]. unfold description. unfold_M. by rewrite author_dormant.
  - exists σ. split; [|done]. unfold homepage. unfold_M. by rewrite author_dormant.
  - exists σ. split; [|done]. unfold profilepage. unfold_M. by rewrite author_dormant.
  - exists σ. split; [|done]. unfold avatarUrl. unfold_M. by rewrite author_dormant.
  - exists σ. split; [|done]. unfold personLoaded. unfold_M. cbn. by rewrite H3.
Qed.

Lemma runAll_dormant cs σ :
  dormant σ → (∀ w, (w, CallComponentComplete) ∉ cs) →
  ∃ σ', runAll arg cs σ = Some (tt, σ') ∧ dormant σ'.
Proof.
  revert σ. induction cs as [|[w c] cs IH]; intros σ Hd Hcs; [by exists σ|].
  destruct (run_dormant w c σ Hd) as (σ1 & Hr & Hd1).
  { intros ->. apply (Hcs w). set_solver. }
  destruct (IH σ1 Hd1) as (σ' & Hrs & Hd').
  { intros w' ?. apply (Hcs w'). set_solver. }
  exists σ'. split; [|done]. cbn [runAll]. unfold_M. by rewrite Hr.
Qed.

Lemma initial_dormant cache : dormant (initial cache).
Proof. repeat split. set_solver. Qed.




(** C6: while [componentCompleted] is false, [resetConnections] returns
    at once with nothing changed, and a setter given a new value only
    stores it and emits its signal. From construction on, as long as
    [componentComplete()] has not been called, every call returns, no
    provider is held, nothing is connected and no lookup request has been
    sent; [componentComplete()] is what sets the flag. *)
Theorem nothing_resolved_before_componentComplete w σ cache cs :
  componentCompleted (d σ) = false →
  (∀ w', (w', CallComponentComplete) ∉ cs) →
  resetConnections arg w σ = Some (tt, σ) ∧
  (∀ o, as_QObject (engine (d σ)) ≠ o →
     setEngine arg w o σ =
       Some (tt, logged [EngineChanged; DataChanged]
                   (with_d (setEngineField (qobject_cast_Engine o) (d σ)) σ))) ∧
  (∀ s, providerId (d σ) ≠ s →
     setProviderId arg w s σ =
       Some (tt, logged [ProviderIdChanged; DataChanged]
                   (with_d (setProviderIdField s (d σ)) σ))) ∧
  (∀ s, username (d σ) ≠ s →
     setUsername arg w s σ =
       Some (tt, logged [UsernameChanged; DataChanged]
                   (with_d (setUsernameField s (d σ)) σ))) ∧
  (∃ σ', runAll arg cs (initial cache) = Some (tt, σ') ∧
         componentCompleted (d σ') = false ∧ provider (d σ') = None ∧
         connections σ' = [] ∧ ∀ p u, LoadPerson p u ∉ trace σ') ∧
  (∀ σ', componentComplete arg w σ = Some (tt, σ') → componentCompleted (d σ') = true).
Proof.
  intros Hc Hcs. split; [by apply resetConnections_not_completed|].
  split; [|split; [|split; [|split]]].
  - intros o Ho. rewrite setEngine_unfold, bool_decide_eq_true_2 by done.
    by rewrite resetConnections_not_completed.
  - intros s Hs. rewrite setProviderId_unfold, bool_decide_eq_true_2 by done.
    by rewrite resetConnections_not_completed.
  - intros s Hs. rewrite setUsername_unfold, bool_decide_eq_true_2 by done.
    by rewrite resetConnections_not_completed.
  - destruct (runAll_dormant cs (initial cache) (initial_dormant cache) Hcs)
      as (σ' & Hr & Hd). by exists σ'.
  - intros σ'. rewrite componentComplete_unfold.
    by intros (-> & _)%resetConnections_frame.
Qed.
End AuthorFacts.

(** ** KMoreTools *)




Lemma filter_none {A} (P : A → Prop) `{∀ x, Decision (P x)} (l : list A) :
  (∀ x, x ∈ l → ¬ P x) → filter P l = [].
Proof.
  intros Hl. destruct (filter P l) as [|x l'] eqn:E; [done|].
  assert (x ∈ filter P l) as [HP Hin]%list_elem_of_filter
    by (rewrite E; apply list_elem_of_here).
  by destruct (Hl x Hin).
Qed.

Section KMoreToolsFacts.
Import KMoreTools.






Lemma locate_desktopEntryName sys uid subdir n mode s :
  locate sys uid subdir n mode = Some s → desktopEntryName s = n.
Proof.
  unfold locate. destruct (kmtDesktopfileIn _ _ _), mode; intros [= <-]; done.
Qed.

Lemma elem_of_addOrReplace n h s l x :
  x ∈ addOrReplace n h s l → x = (h, s) ∨ x ∈ l.
Proof.
  induction l as [|[h' s'] l IH]; cbn [addOrReplace].
  - rewrite list_elem_of_singleton. auto.
  - case_bool_decide; rewrite !elem_of_cons.
    + intros [->|?]; auto.
    + intros [->|[->|?]%IH]; auto.
Qed.




Lemma addOrReplace_names n h s l :
  desktopEntryName s = n →
  namesOf (addOrReplace n h s l) =
    if bool_decide (n ∈ namesOf l) then namesOf l else (namesOf l ++ [n])%list.
Proof.
  intros <-. unfold namesOf.
  induction l as [|[h' s'] l IH]; cbn [addOrReplace fmap list_fmap].
  - by rewrite bool_decide_eq_false_2 by apply not_elem_of_nil.
  - destruct (decide (desktopEntryName s' = desktopEntryName s)) as [Hn|Hn].
    + rewrite (bool_decide_eq_true_2 _ Hn). cbn [fmap list_fmap snd]. rewrite Hn.
      by rewrite bool_decide_eq_true_2 by apply list_elem_of_here.
    + rewrite (bool_decide_eq_false_2 _ Hn). cbn [fmap list_fmap snd]. rewrite IH.
      destruct (decide (desktopEntryName s ∈
                  (λ e : nat * KMoreToolsService, desktopEntryName e.2) <$> l)) as [Hin|Hin].
      * rewrite (bool_decide_eq_true_2 _ Hin).
        by rewrite bool_decide_eq_true_2 by by apply list_elem_of_further.
      * rewrite (bool_decide_eq_false_2 _ Hin).
        rewrite bool_decide_eq_false_2; [done|].
        rewrite elem_of_cons. intros [?|?]; congruence.
Qed.

Lemma addOrReplace_NoDup n h s l :
  desktopEntryName s = n → NoDup (namesOf l) → NoDup (namesOf (addOrReplace n h s l)).
Proof.
  intros Hs Hnd. rewrite addOrReplace_names by done.
  case_bool_decide; [done|].
  apply NoDup_app. split; [done|]. split; [|apply NoDup_singleton].
  intros x Hx ->%list_elem_of_singleton. done.
Qed.

(** After a registration the name has one entry, the new one. *)
Lemma addOrReplace_filter n h s l :
  desktopEntryName s = n →
  NoDup (namesOf l) →
  filter (λ e : nat * KMoreToolsService, desktopEntryName e.2 = n) (addOrReplace n h s l)
    = [(h, s)].
Proof.
  intros Hs. unfold namesOf.
  induction l as [|[h' s'] l IH]; cbn [addOrReplace fmap list_fmap snd].
  - intros _. by rewrite filter_cons_True.
  - intros [Hnotin Hnd]%NoDup_cons.
    destruct (decide (desktopEntryName s' = n)) as [Hn|Hn].
    + rewrite (bool_decide_eq_true_2 _ Hn). rewrite filter_cons_True by done. f_equal.
      apply filter_none. intros [h2 s2] Hin Heq. apply Hnotin.
      rewrite Hn, <- Heq.
      by apply (list_elem_of_fmap_2 (λ e : nat * KMoreToolsService, desktopEntryName e.2)
                  _ (h2, s2)).
    + rewrite (bool_decide_eq_false_2 _ Hn). rewrite filter_cons_False by done. by apply IH.
Qed.

Lemma register_unfold sys n subdir mode k :
  registerServiceByDesktopEntryName sys n subdir mode k =
    match locate sys (uniqueId k) subdir n mode with
    | Some s =>
        (Some (nextAddr k),
         mk (uniqueId k) (addOrReplace n (nextAddr k) s (serviceList k))
           (menuBuilderMap k) (builders k) (S (nextAddr k)))
    | None => (None, k)
    end.
Proof. done. Qed.

Lemma wf_create uid : wf (create uid).
Proof.
  split; [|split; [|split]]; cbn.
  - by intros p b.
  - by intros p1 p2 b.
  - by intros h s ?%elem_of_nil.
  - apply NoDup_nil_2.
Qed.

Lemma wf_register sys n subdir mode k :
  wf k → wf (registerServiceByDesktopEntryName sys n subdir mode k).2.
Proof.
  intros (Hb & Hinj & Hh & Hnd). rewrite register_unfold.
  destruct (locate _ _ _ _ _) as [s|] eqn:El; [|done].
  apply locate_desktopEntryName in El.
  split; [|split; [|split]]; cbn.
  - intros p b Hl. destruct (Hb p b Hl) as [? ?]. split; [lia|done].
  - done.
  - intros h s' [[= -> ->]|Hin]%elem_of_addOrReplace; [lia|].
    specialize (Hh _ _ Hin). lia.
  - by apply addOrReplace_NoDup.
Qed.

Lemma wf_menuBuilder postfix k : wf k → wf (menuBuilder postfix k).2.
Proof.
  intros (Hb & Hinj & Hh & Hnd). unfold menuBuilder.
  destruct (menuBuilderMap k !! postfix) as [b0|] eqn:Em; [done|].
  split; [|split; [|split]]; cbn.
  - intros p b. rewrite lookup_insert. case_decide as Hp.
    + intros [= <-]. rewrite lookup_insert_eq. split; [lia|done].
    + intros Hl. destruct (Hb _ _ Hl) as [Hlt Hs].
      rewrite lookup_insert_ne by lia. split; [lia|done].
  - intros p1 p2 b. rewrite !lookup_insert.
    repeat case_decide; subst; try done.
    + intros [= <-] Hl. destruct (Hb _ _ Hl). lia.
    + intros Hl [= <-]. destruct (Hb _ _ Hl). lia.
    + apply Hinj.
  - intros h s Hin. specialize (Hh _ _ Hin). lia.
  - done.
Qed.

Lemma wf_serve c k : wf k → wf (serve c k).
Proof. destruct c; [apply wf_register|apply wf_menuBuilder]. Qed.

Lemma wf_serveAll cs k : wf k → wf (serveAll cs k).
Proof.
  revert k. induction cs as [|c cs IH]; intros k Hk; [done|].
  apply IH. by apply wf_serve.
Qed.

Lemma extends_refl k : extends k k.
Proof. by split; [|split; [|split]]. Qed.

Lemma extends_trans k1 k2 k3 : extends k1 k2 → extends k2 k3 → extends k1 k3.
Proof.
  intros (H0 & H1 & H2 & H3) (H0' & H1' & H2' & H3'). split; [|split; [|split]].
  - congruence.
  - lia.
  - eauto.
  - intros b Hb Hs. apply H3'; [lia|]. by apply H3.
Qed.

Lemma extends_serve c k : extends k (serve c k).
Proof.
  destruct c as [sys n subdir mode|postfix]; cbn [serve].
  - rewrite register_unfold. destruct (locate _ _ _ _ _); [|apply extends_refl].
    split; [|split; [|split]]; cbn; [done|lia|done..].
  - unfold menuBuilder. destruct (menuBuilderMap k !! postfix) as [b|] eqn:Em;
      [apply extends_refl|].
    split; [|split; [|split]]; cbn.
    + done.
    + lia.
    + intros p b Hl. rewrite lookup_insert_ne; [done|]. congruence.
    + intros b Hb Hs. rewrite lookup_insert_ne by lia. done.
Qed.

Lemma extends_serveAll cs k : extends k (serveAll cs k).
Proof.
  revert k. induction cs as [|c cs IH]; intros k; [apply extends_refl|].
  eapply extends_trans; [apply extends_serve|apply IH].
Qed.

Lemma menuBuilder_lookup postfix k :
  menuBuilderMap (menuBuilder postfix k).2 !! postfix = Some (menuBuilder postfix k).1.
Proof.
  unfold menuBuilder. destruct (menuBuilderMap k !! postfix) as [b|] eqn:Em; [done|].
  cbn. apply lookup_insert_eq.
Qed.

(** C8: [menuBuilder] is memoized by postfix. On a KMoreTools object, after
    any requests, a builder asked for under [p1] and, any requests later, a
    builder asked for under [p2] are the same object exactly when the
    postfixes are equal; the first one is still the builder of its postfix
    and still an object of the KMoreTools. *)
Theorem menuBuilder_memoized uid cs0 cs1 p1 p2 :
  let r1 := menuBuilder p1 (serveAll cs0 (create uid)) in
  let r2 := menuBuilder p2 (serveAll cs1 r1.2) in
  (r1.1 = r2.1 ↔ p1 = p2) ∧
  menuBuilderMap r2.2 !! p1 = Some r1.1 ∧
  is_Some (builders r2.2 !! r1.1).
Proof.
  intros r1 r2.
  assert (wf r2.2) as (Hb & Hinj & _).
  { apply wf_menuBuilder, wf_serveAll, wf_menuBuilder, wf_serveAll, wf_create. }
  assert (extends r1.2 r2.2) as (_ & _ & Hext & _).
  { eapply extends_trans; [apply extends_serveAll|].
    apply (extends_serve (MenuBuilder p2)). }
  pose proof (Hext _ _ (menuBuilder_lookup p1 _)) as H1.
  pose proof (menuBuilder_lookup p2 (serveAll cs1 r1.2)) as H2.
  fold r1 in H1. fold r2 in H2.
  split; [|split; [done|by destruct (Hb _ _ H1)]].
  split.
  - intros Heq. rewrite Heq in H1. by apply (Hinj _ _ _ H1 H2).
  - intros ->. congruence.
Qed.

Lemma handle_of_register sys n subdir mode k h k' :
  wf k →
  registerServiceByDesktopEntryName sys n subdir mode k = (Some h, k') →
  h = nextAddr k ∧ handle_of h n k'.
Proof.
  intros (_ & _ & Hh & _). rewrite register_unfold.
  destruct (locate _ _ _ _ _) as [s|] eqn:El; [|done].
  apply locate_desktopEntryName in El. intros [= <- <-].
  split; [done|]. split; cbn; [lia|].
  intros s' [[= ->]|Hin]%elem_of_addOrReplace; [done|].
  specialize (Hh _ _ Hin). lia.
Qed.

Lemma handle_of_serve h n c k : handle_of h n k → handle_of h n (serve c k).
Proof.
  intros [Hlt Hn]. destruct c as [sys n' subdir mode|postfix]; cbn [serve].
  - rewrite register_unfold. destruct (locate _ _ _ _ _) as [s|]; [|done].
    split; cbn; [lia|].
    intros s' [[= -> ->]|Hin]%elem_of_addOrReplace; [lia|by apply Hn].
  - unfold menuBuilder. destruct (menuBuilderMap k !! postfix); [done|].
    split; cbn; [lia|done].
Qed.

Lemma handle_of_serveAll h n cs k : handle_of h n k → handle_of h n (serveAll cs k).
Proof.
  revert k. induction cs as [|c cs IH]; intros k Hk; [done|].
  apply IH. by apply handle_of_serve.
Qed.

(** C9: registering a desktop-entry name again, whatever was requested in
    between, locates the service again and gives a new handle; the entry
    of the name then holds the new handle and service, and the handle
    returned before is no longer in the list. After any requests the list
    has at most one entry per desktop-entry name. *)
Theorem register_again_replaces_handle uid cs0 cs1 sys1 sys2 n sub1 sub2 m1 m2 h1 h2 k1 k2 :
  registerServiceByDesktopEntryName sys1 n sub1 m1 (serveAll cs0 (create uid))
    = (Some h1, k1) →
  registerServiceByDesktopEntryName sys2 n sub2 m2 (serveAll cs1 k1) = (Some h2, k2) →
  h1 ≠ h2 ∧
  (h1 ∉ fst <$> serviceList k2) ∧
  (∃ s, locate sys2 uid sub2 n m2 = Some s ∧
        filter (λ e : nat * KMoreToolsService, desktopEntryName e.2 = n) (serviceList k2)
          = [(h2, s)]) ∧
  (∀ cs, NoDup (serviceNames (serveAll cs (create uid)))).
Proof.
  intros Hr1 Hr2.
  set (k0 := serveAll cs0 (create uid)) in *.
  assert (wf k0) as Hwf0 by apply wf_serveAll, wf_create.
  destruct (handle_of_register _ _ _ _ _ _ _ Hwf0 Hr1) as [Hh1 Ho1].
  assert (k1 = serve (Register sys1 n sub1 m1) k0) as Hk1 by (cbn [serve]; by rewrite Hr1).
  assert (wf (serveAll cs1 k1)) as Hwf1.
  { apply wf_serveAll. rewrite Hk1. by apply wf_serve. }
  assert (uniqueId (serveAll cs1 k1) = uid) as Huid.
  { destruct (extends_serveAll cs1 k1) as [-> _]. rewrite Hk1.
    destruct (extends_serve (Register sys1 n sub1 m1) k0) as [-> _].
    unfold k0. by destruct (extends_serveAll cs0 (create uid)) as [-> _]. }
  pose proof (handle_of_serveAll _ _ cs1 _ Ho1) as [Hlt Hn1].
  destruct Hwf1 as (_ & _ & _ & Hnd).
  revert Hr2. rewrite register_unfold, Huid.
  destruct (locate sys2 uid sub2 n m2) as [s2|] eqn:El; [|done].
  intros [= <- <-]. cbn [serviceList].
  pose proof (addOrReplace_filter n (nextAddr (serveAll cs1 k1)) s2 _
                (locate_desktopEntryName _ _ _ _ _ _ El) Hnd) as Hf.
  split; [lia|]. split; [|split].
  - intros ([h x] & Hfst & Hin)%list_elem_of_fmap. cbn in Hfst. subst h.
    assert ((h1, x) ∈ [(nextAddr (serveAll cs1 k1), s2)]) as Hin'.
    { rewrite <- Hf. apply list_elem_of_filter. split; [|done]. cbn.
      apply elem_of_addOrReplace in Hin as [[= ? ?]|Hin]; [lia|by apply Hn1]. }
    apply list_elem_of_singleton in Hin' as [= ? ?]. lia.
  - by exists s2.
  - intros cs. by destruct (wf_serveAll cs (create uid) (wf_create uid)) as (_ & _ & _ & ?).
Qed.

Lemma build_mainActions userConfig setting b j :
  j ∈ mainActions (buildByAppendingToMenu userConfig setting b) →
  notInstalled j = false ∧ sectionOf userConfig j = MenuSection_Main ∧ j ∈ menuItems b.
Proof.
  cbn. intros [Hs [Hn Hin]%list_elem_of_filter]%list_elem_of_filter. done.
Qed.

Lemma build_not_installed userConfig setting b i :
  i ∈ menuItems b → notInstalled i = true →
  let m := buildByAppendingToMenu userConfig setting b in
  (i ∉ mainActions m) ∧
  ∃ more, moreMenu m = Some more ∧ i ∈ notInstalledSection more ∧ i ∉ moreActions more.
Proof.
  intros Hin Hni m. split.
  - intros [Hf _]%build_mainActions. congruence.
  - assert (i ∈ filter (λ i, notInstalled i = true) (menuItems b)) as Hmiss
      by by apply list_elem_of_filter.
    exists (mkMoreMenu
              (filter (λ i, sectionOf userConfig i = MenuSection_More)
                 (filter (λ i, notInstalled i = false) (menuItems b)))
              (filter (λ i, notInstalled i = true) (menuItems b))).
    split; [|split; [done|]].
    + unfold m, buildByAppendingToMenu. cbn [moreMenu].
      destruct (filter (λ i, notInstalled i = true) (menuItems b)) as [|x l];
        [by apply elem_of_nil in Hmiss|].
      by destruct (filter _ (filter _ _)).
    + cbn. intros [_ [Hf _]%list_elem_of_filter]%list_elem_of_filter. congruence.
Qed.

(** C10: an item of the builder whose service is not installed is put by
    [buildByAppendingToMenu] into the "Not installed" subsection of the
    "More" submenu, which is then there, and into neither the main section
    nor the actions of "More", whatever section it asked for or the user
    configured; no action of the main section belongs to a service that is
    not installed; and so it is for a not-installed service just added
    with the main section as its default. *)
Theorem not_installed_item_is_placed_under_not_installed userConfig setting b i :
  i ∈ menuItems b →
  notInstalled i = true →
  let m := buildByAppendingToMenu userConfig setting b in
  (i ∉ mainActions m) ∧
  (∃ more, moreMenu m = Some more ∧ i ∈ notInstalledSection more ∧ i ∉ moreActions more) ∧
  (∀ j, j ∈ mainActions m → notInstalled j = false) ∧
  (∀ s, isInstalled s = false →
     let r := addMenuItem s MenuSection_Main b in
     let m' := buildByAppendingToMenu userConfig setting r.2 in
     defaultLocation r.1 = MenuSection_Main ∧
     (r.1 ∉ mainActions m') ∧
     ∃ more, moreMenu m' = Some more ∧ r.1 ∈ notInstalledSection more).
Proof.
  intros Hin Hni m.
  destruct (build_not_installed userConfig setting b i Hin Hni) as [Hmain Hmore].
  split; [done|]. split; [done|]. split.
  - by intros j [? _]%build_mainActions.
  - intros s Hs r m'.
    assert (r.1 ∈ menuItems r.2) as Hin'.
    { cbn. apply elem_of_app. right. apply list_elem_of_here. }
    assert (notInstalled r.1 = true) as Hni' by (cbn; by rewrite Hs).
    destruct (build_not_installed userConfig setting r.2 r.1 Hin' Hni')
      as [Hmain' (more & Hm & Hsec & _)].
    split; [done|]. split; [done|]. by exists more.
Qed.

End KMoreToolsFacts.

(** ** The statements at explicit inputs *)

Lemma setup_connected :
  Author.runAll arg12 Examples.setup (Author.initial ∅) = Some (tt, Examples.connected).
Proof. vm_compute. reflexivity. Qed.

Lemma connected_reachable : Author.reachable arg12 Examples.connected.
Proof.
  pose proof setup_connected as H. unfold Examples.setup in H.
  cbn [Author.runAll] in H. unfold mbind, Author.M_bind in H.
  repeat match type of H with
  | match Author.run arg12 ?w ?c ?σ with _ => _ end = _ =>
      let E := fresh "E" in
      destruct (Author.run arg12 w c σ) as [[[] ?]|] eqn:E; [|discriminate H]
  end.
  injection H as <-.
  repeat (eapply Author.reachable_run; [|eassumption]).
  apply Author.reachable_initial.
Qed.

(** C1 at [connected]: the hash is empty, so [name()] is "leinir" and one
    more request goes to [store]. *)
Lemma property_read_on_cache_miss_witness :
  Author.allAuthors Examples.connected
    !! Author.authorKey arg12 "api.kde-look.org" "leinir" = None ∧
  Author.name arg12 Examples.connected =
    Some ("leinir",
          Author.logged [Author.LoadPerson Examples.store "leinir"] Examples.connected).
Proof.
  split; [reflexivity|].
  apply (property_read_on_cache_miss arg12 Examples.connected Examples.store "leinir");
    [reflexivity|reflexivity|discriminate|reflexivity].
Defined.

(** C4 at [connected]: nothing is cached for [leinir], and every accessor
    returns its fallback. *)
Lemma accessors_fall_back_when_unresolved_witness :
  ∃ σ',
    Author.name arg12 Examples.connected = Some ("leinir", σ') ∧
    Author.description arg12 Examples.connected = Some ("", σ') ∧
    Author.homepage arg12 Examples.connected = Some ("", σ') ∧
    Author.profilepage arg12 Examples.connected = Some ("", σ') ∧
    Author.avatarUrl arg12 Examples.connected = Some ("", σ').
Proof.
  apply (accessors_fall_back_when_unresolved arg12 Examples.connected).
  intros p [= <-]. reflexivity.
Defined.

(** C2 as stated fails at [connected], the adapter after [setup], when
    [store] delivers the record [nameless] for the user looked up: the
    record is cached under the key, and [name()] still returns the raw
    username, which is not the record's display name. *)
Lemma personLoaded_nameless_keeps_username :
  Author.reachable arg12 Examples.connected ∧
  Author.connected_to Examples.connected Examples.store ∧
  Author.username (Author.d Examples.connected) = KNSCore.Author.id Examples.nameless ∧
  ∃ σ1 σ2,
    Author.personLoaded arg12 Examples.store Examples.nameless Examples.connected
      = Some (tt, σ1) ∧
    Author.allAuthors σ1 !! Author.authorKey arg12 "api.kde-look.org" "leinir"
      = Some Examples.nameless ∧
    Author.name arg12 σ1 = Some ("leinir", σ2) ∧
    "leinir" ≠ KNSCore.Author.name Examples.nameless.
Proof.
  split; [exact connected_reachable|].
  split; [by split|]. split; [reflexivity|].
  eexists _, _. split; [vm_compute; reflexivity|].
  split; [reflexivity|]. split; [vm_compute; reflexivity|discriminate].
Qed.

(** C2, amended, at [connected] when [store] delivers [leinir]: the state
    is [loaded] and [name()] is the display name. *)
Lemma personLoaded_then_name_witness :
  Author.reachable arg12 Examples.connected ∧
  Author.personLoaded arg12 Examples.store Examples.leinir Examples.connected
    = Some (tt, Examples.loaded) ∧
  Author.name arg12 Examples.loaded
    = Some ("Dan Leinir Turthra Jensen", Examples.loaded).
Proof.
  split; [exact connected_reachable|].
  destruct (personLoaded_then_name arg12 Examples.connected Examples.store Examples.leinir
              "leinir" connected_reachable eq_refl eq_refl ltac:(discriminate) eq_refl)
    as (Hl & _ & Hn).
  split; [exact Hl|exact Hn].
Defined.

(** C3 as stated fails at [loaded] when [store] delivers the record of
    [leinir] again with another description: the mapping of the key to the
    first record is gone, the key now holds the second one. *)
Lemma personLoaded_again_replaces_record :
  Author.allAuthors Examples.loaded !! Author.authorKey arg12 "api.kde-look.org" "leinir"
    = Some Examples.leinir ∧
  ∃ σ',
    Author.run arg12 Examples.world
      (Author.SignalPersonLoaded Examples.store Examples.leinir_updated) Examples.loaded
      = Some (tt, σ') ∧
    Author.allAuthors σ' !! Author.authorKey arg12 "api.kde-look.org" "leinir"
      = Some Examples.leinir_updated ∧
    Author.allAuthors σ' ≠ Author.allAuthors Examples.loaded ∧
    size (Author.allAuthors σ') = size (Author.allAuthors Examples.loaded) ∧
    Examples.leinir ≠ Examples.leinir_updated.
Proof.
  split; [reflexivity|].
  eexists. split; [vm_compute; reflexivity|].
  split; [reflexivity|]. split; [|split; [reflexivity|discriminate]].
  intros H.
  apply (f_equal (λ m, m !! Author.authorKey arg12 "api.kde-look.org" "leinir")) in H.
  vm_compute in H. discriminate H.
Qed.

(** C3, amended, at the same call: the hash after it is the hash before
    with the delivered record inserted. *)
Lemma cache_changes_by_insert_only_witness :
  ∃ σ',
    Author.run arg12 Examples.world
      (Author.SignalPersonLoaded Examples.store Examples.leinir_updated) Examples.loaded
      = Some (tt, σ') ∧
    dom (Author.allAuthors Examples.loaded) ⊆ dom (Author.allAuthors σ').
Proof.
  eexists. split; [vm_compute; reflexivity|].
  refine (proj2 (cache_changes_by_insert_only arg12 Examples.world
                   (Author.SignalPersonLoaded Examples.store Examples.leinir_updated)
                   Examples.loaded _ _)).
  vm_compute; reflexivity.
Defined.




Lemma early_without_componentComplete w :
  (w, Author.CallComponentComplete) ∉ Examples.early.
Proof.
  unfold Examples.early. rewrite !elem_of_cons, elem_of_nil.
  intros [H|[H|[H|[H|[]]]]]; discriminate H.
Qed.

(** C6 at the adapter as constructed and the calls [early]: everything
    returns, and no provider is held, nothing is connected and nothing was
    requested after them. *)
Lemma nothing_resolved_before_componentComplete_witness :
  Author.componentCompleted (Author.d (Author.initial ∅)) = false ∧
  Author.resetConnections arg12 Examples.world (Author.initial ∅)
    = Some (tt, Author.initial ∅) ∧
  ∃ σ',
    Author.runAll arg12 Examples.early (Author.initial ∅) = Some (tt, σ') ∧
    Author.provider (Author.d σ') = None ∧
    Author.connections σ' = [].
Proof.
  split; [reflexivity|].
  destruct (nothing_resolved_before_componentComplete arg12 Examples.world
              (Author.initial ∅) ∅ Examples.early eq_refl early_without_componentComplete)
    as (Hreset & _ & _ & _ & (σ' & Hrun & _ & Hp & Hc & _) & _).
  split; [exact Hreset|]. by exists σ'.
Defined.



(** C9 on a fresh KMoreTools: gitk registered twice gets the handles 0 and
    then 1, and the list ends with the one entry of handle 1. *)
Lemma register_again_replaces_handle_witness :
  let k1 := (KMoreTools.registerServiceByDesktopEntryName Examples.system "gitk" ""
               KMoreTools.ServiceLocatingMode_Default (KMoreTools.create "kate/git-tools")).2 in
  let k2 := (KMoreTools.registerServiceByDesktopEntryName Examples.system "gitk" ""
               KMoreTools.ServiceLocatingMode_Default k1).2 in
  fst <$> KMoreTools.serviceList k1 = [0] ∧
  fst <$> KMoreTools.serviceList k2 = [1] ∧
  (0 ∉ fst <$> KMoreTools.serviceList k2).
Proof.
  intros k1 k2. split; [reflexivity|]. split; [reflexivity|].
  refine (proj1 (proj2 (register_again_replaces_handle "kate/git-tools" [] []
            Examples.system Examples.system "gitk" "" ""
            KMoreTools.ServiceLocatingMode_Default KMoreTools.ServiceLocatingMode_Default
            0 1 k1 k2 _ _))); reflexivity.
Defined.

(** C10 at [builder], whose one item asks for the main section and is of
    the not-installed [gitk]: the main section stays empty and the item is
    under "Not installed". *)
Lemma not_installed_item_is_placed_under_not_installed_witness :
  KMoreTools.defaultLocation Examples.gitkItem = KMoreTools.MenuSection_Main ∧
  KMoreTools.notInstalled Examples.gitkItem = true ∧
  KMoreTools.buildByAppendingToMenu ∅ KMoreTools.ConfigureDialogAccessible_Always
    Examples.builder
    = KMoreTools.mkBuiltMenu [] (Some (KMoreTools.mkMoreMenu [] [Examples.gitkItem])) true ∧
  (Examples.gitkItem ∉
     KMoreTools.mainActions
       (KMoreTools.buildByAppendingToMenu ∅ KMoreTools.ConfigureDialogAccessible_Always
          Examples.builder)).
Proof.
  split; [reflexivity|]. split; [reflexivity|]. split; [reflexivity|].
  refine (proj1 (not_installed_item_is_placed_under_not_installed ∅
            KMoreTools.ConfigureDialogAccessible_Always Examples.builder Examples.gitkItem
            _ eq_refl)).
  apply list_elem_of_here.
Defined.

(** ** Further properties of the Author adapter *)

Section AuthorFurther.
Import Author.
Local Open Scope list_scope.
Variable arg : string → string → string.
Implicit Types (σ : State) (w : World) (p : KNSCore.Provider.t) (a : KNSCore.Author.t).

Lemma logged_nil σ : logged [] σ = σ.
Proof. destruct σ. unfold logged. cbn. by rewrite app_nil_r. Qed.

Lemma author_trace σ r σ' :
  author arg σ = Some (r, σ') → trace σ' = trace σ ++ lookupRequest arg σ.
Proof.
  rewrite author_unfold. unfold lookupRequest.
  destruct (provider (d σ)) as [p|]; [|intros [= _ <-]; by rewrite app_nil_r].
  destruct (isEmpty _); [intros [= _ <-]; by rewrite app_nil_r|].
  destruct (allAuthors σ !! _); intros [= _ <-]; [by rewrite app_nil_r|done].
Qed.

Lemma lookupRequest_ext σ σ' :
  d σ' = d σ → allAuthors σ' = allAuthors σ → lookupRequest arg σ' = lookupRequest arg σ.
Proof. unfold lookupRequest. by intros -> ->. Qed.

Lemma resetConnections_trace w σ σ' :
  resetConnections arg w σ = Some (tt, σ') →
  trace σ' = trace σ ++ (if componentCompleted (d σ) then lookupRequest arg σ' else []).
Proof.
  destruct (componentCompleted (d σ)) eqn:Hc.
  - rewrite resetConnections_completed by done.
    destruct (resolvedProvider w (d σ)) as [[p|]|]; [| |done].
    + destruct (author _ _) as [[r σ1]|] eqn:Ha; [|done]. intros [= <-].
      rewrite (author_trace _ _ _ Ha). f_equal. symmetry.
      by apply author_frame in Ha as (Hd & Hcache & _); apply lookupRequest_ext.
    + intros [= <-]. cbn. by rewrite app_nil_r.
  - rewrite resetConnections_not_completed by done. intros [= <-]. by rewrite app_nil_r.
Qed.

(** X1: on a completed adapter whose engine gives a KNSCore engine,
    [resetConnections] returns and settles on the provider the engine
    knows under the stored provider id, and on the engine's default
    provider when it knows none under that id; the provider held before
    plays no part. *)
Theorem resetConnections_resolves_provider w σ e ce :
  componentCompleted (d σ) = true →
  engine (d σ) = Some e →
  Engine_engine w e = Some (CoreEngine ce) →
  ∃ σ',
    resetConnections arg w σ = Some (tt, σ') ∧
    provider (d σ') =
      match Engine_provider w ce (providerId (d σ)) with
      | Some p => Some p
      | None => Engine_defaultProvider w ce
      end.
Proof.
  intros Hc He Hw. rewrite resetConnections_completed by done.
  unfold resolvedProvider. rewrite He, Hw.
  destruct (Engine_provider w ce (providerId (d σ))) as [p|].
  - destruct (author_total arg (mkState (setProviderField (Some p) (d σ)) (allAuthors σ)
                (disconnected σ ++ [p]) (trace σ))) as [[r σ1] Ha].
    rewrite Ha. exists σ1. split; [done|].
    by apply author_frame in Ha as (-> & _).
  - destruct (Engine_defaultProvider w ce) as [p|]; [|by eexists].
    destruct (author_total arg (mkState (setProviderField (Some p) (d σ)) (allAuthors σ)
                (disconnected σ ++ [p]) (trace σ))) as [[r σ1] Ha].
    rewrite Ha. exists σ1. split; [done|].
    by apply author_frame in Ha as (-> & _).
Qed.

(** X2: every adapter of a running process has at most one connection,
    and it is from the provider it holds; before the component is complete
    it holds no provider and has no connection. *)
Theorem connections_follow_provider σ :
  reachable arg σ →
  connections σ = option_list (provider (d σ)) ∧
  (componentCompleted (d σ) = false → provider (d σ) = None ∧ connections σ = []).
Proof.
  intros [Hi1 Hi2]%reachable_inv. split; [done|].
  intros Hc. rewrite Hi1, (Hi2 Hc). done.
Qed.

(** X3: when the hash holds a record under the key of the provider held
    and the non-empty username, every accessor returns from that record
    and nothing is requested or changed: [name()] its display name, or the
    raw username if the display name is empty, the others their field. *)
Theorem cached_record_is_served σ p u r :
  provider (d σ) = Some p →
  username (d σ) = u →
  u ≠ "" →
  allAuthors σ !! authorKey arg (KNSCore.Provider.id p) u = Some r →
  name arg σ = Some (if isEmpty (KNSCore.Author.name r) then u else KNSCore.Author.name r, σ) ∧
  description arg σ = Some (KNSCore.Author.description r, σ) ∧
  homepage arg σ = Some (KNSCore.Author.homepage r, σ) ∧
  profilepage arg σ = Some (KNSCore.Author.profilepage r, σ) ∧
  avatarUrl arg σ = Some (KNSCore.Author.avatarUrl r, σ).
Proof.
  intros Hp Hu Hne Hhit.
  assert (author arg σ = Some (Some r, σ)) as Ha.
  { rewrite author_unfold, Hp, Hu. apply isEmpty_false in Hne. by rewrite Hne, Hhit. }
  unfold description, homepage, profilepage, avatarUrl.
  rewrite name_unfold, !getter_unfold, Ha, Hu.
  by destruct (isEmpty (KNSCore.Author.name r)).
Qed.

(** X4: with an empty username nothing is looked up: every accessor
    returns the empty value, nothing is requested and nothing changes,
    whatever provider is held and whatever the hash holds. *)
Theorem empty_username_is_never_looked_up σ :
  username (d σ) = "" →
  name arg σ = Some ("", σ) ∧
  description arg σ = Some ("", σ) ∧
  homepage arg σ = Some ("", σ) ∧
  profilepage arg σ = Some ("", σ) ∧
  avatarUrl arg σ = Some ("", σ).
Proof.
  intros Hu.
  assert (author arg σ = Some (None, σ)) as Ha.
  { rewrite author_unfold, Hu. by destruct (provider (d σ)). }
  unfold description, homepage, profilepage, avatarUrl.
  by rewrite name_unfold, !getter_unfold, Ha, Hu.
Qed.

(** X5: clearing the engine does not detach a completed adapter: after
    [setEngine(nullptr)] it still holds the provider it held and is still
    connected to it, and [engineChanged] has been emitted. *)
Theorem setEngine_null_keeps_provider w σ p :
  reachable arg σ →
  componentCompleted (d σ) = true →
  provider (d σ) = Some p →
  engine (d σ) ≠ None →
  ∃ σ',
    setEngine arg w None σ = Some (tt, σ') ∧
    engine (d σ') = None ∧
    connected_to σ' p ∧
    trace σ' = trace σ ++ lookupRequest arg σ ++ [EngineChanged; DataChanged].
Proof.
  intros Hreach Hc Hp He.
  destruct (reachable_connected arg σ p Hreach Hp) as [_ Hconn].
  rewrite setEngine_unfold, bool_decide_eq_true_2
    by (destruct (engine (d σ)); [done|by destruct He]).
  rewrite resetConnections_completed by done.
  unfold resolvedProvider, disconnected. cbn. rewrite Hp, Hconn, filter_ne_singleton. cbn.
  set (σx := mkState _ _ _ _).
  destruct (author_total arg σx) as [[r σ1] Ha]. rewrite Ha. cbn.
  pose proof (author_trace _ _ _ Ha) as Ht.
  apply author_frame in Ha as (Hd & Hcache & Hcon).
  exists (logged [EngineChanged; DataChanged] σ1).
  split; [done|]. split; [cbn; by rewrite Hd|]. split.
  - split; cbn; [by rewrite Hd|by rewrite Hcon].
  - cbn. rewrite Ht, <- app_assoc. cbn. do 2 f_equal.
    unfold lookupRequest. cbn. by rewrite Hp.
Qed.

Lemma resetConnections_None w σ :
  componentCompleted (d σ) = true →
  resetConnections arg w σ = None ↔ resolvedProvider w (d σ) = None.
Proof.
  intros Hc. rewrite resetConnections_completed by done.
  destruct (resolvedProvider w (d σ)) as [[p|]|]; [|done..].
  destruct (author_total arg (mkState (setProviderField (Some p) (d σ)) (allAuthors σ)
              (disconnected σ ++ [p]) (trace σ))) as [[r σ1] ->].
  done.
Qed.

(** X6: [resetConnections] goes through a null pointer in one case only:
    the component is complete, the engine's [engine()] answers an object
    that is not a KNSCore engine, and no provider is held; then the
    unguarded [coreEngine->defaultProvider()] is reached. *)
Theorem resetConnections_null_call w σ :
  resetConnections arg w σ = None ↔
  componentCompleted (d σ) = true ∧
  provider (d σ) = None ∧
  ∃ e o, engine (d σ) = Some e ∧ Engine_engine w e = Some o ∧
         qobject_cast_CoreEngine (Some o) = None.
Proof.
  destruct (componentCompleted (d σ)) eqn:Hc.
  - rewrite resetConnections_None by done. unfold resolvedProvider. split.
    + destruct (engine (d σ)) as [e|]; [|done].
      destruct (Engine_engine w e) as [o|] eqn:Ho; [|done].
      destruct (provider (d σ)) as [p|]; [by destruct o|].
      destruct o as [a|ce|a]; [|done|]; intros _;
        (split; [done|]); (split; [done|]); eexists _, _; by rewrite Ho.
    + intros (_ & -> & e & o & -> & -> & Hcast). by destruct o.
  - rewrite resetConnections_not_completed by done. split; [done|]. by intros [? _].
Qed.

(** X7: [personLoaded] from a provider other than the one the adapter
    holds reaches no slot of the adapter: nothing is cached, nothing is
    emitted, the state is as it was. *)
Theorem personLoaded_from_other_provider_is_ignored σ sender a :
  reachable arg σ →
  provider (d σ) ≠ Some sender →
  personLoaded arg sender a σ = Some (tt, σ).
Proof.
  intros [Hi _]%reachable_inv Hne. unfold personLoaded. unfold_M. cbn. rewrite Hi.
  destruct (provider (d σ)) as [p|]; [|done]. cbn.
  rewrite decide_False by congruence. done.
Qed.

(** X8: an adapter caches and announces every record its provider
    delivers, not only the one of its own username: the record goes under
    the key of the provider id and the record's id, and [dataChanged] is
    emitted once. *)
Theorem personLoaded_caches_any_record σ p a :
  reachable arg σ →
  provider (d σ) = Some p →
  personLoaded arg p a σ =
    Some (tt, mkState (d σ)
                (<[authorKey arg (KNSCore.Provider.id p) (KNSCore.Author.id a) := a]>
                   (allAuthors σ))
                (connections σ) (trace σ ++ [DataChanged])).
Proof.
  intros Hreach Hp. apply personLoaded_connected. by apply (reachable_connected arg).
Qed.

Lemma resetConnections_without_engine w σ :
  engine (d σ) = None → ∃ σ', resetConnections arg w σ = Some (tt, σ').
Proof.
  intros He. destruct (resetConnections arg w σ) as [[[] σ']|] eqn:Hr; [by eexists|].
  destruct (componentCompleted (d σ)) eqn:Hc.
  - apply resetConnections_None in Hr; [|done].
    unfold resolvedProvider in Hr. by rewrite He in Hr.
  - by rewrite resetConnections_not_completed in Hr.
Qed.

(** X9: a setter called again with the value it was just given does
    nothing: no field changes and no signal is emitted. For [setEngine]
    this holds for the objects the cast hands back unchanged, a null
    pointer and a KNewStuffQuick engine. *)
Theorem setters_are_idempotent w w' σ σ' :
  (∀ s, setProviderId arg w s σ = Some (tt, σ') → setProviderId arg w' s σ' = Some (tt, σ')) ∧
  (∀ s, setUsername arg w s σ = Some (tt, σ') → setUsername arg w' s σ' = Some (tt, σ')) ∧
  (∀ o, as_QObject (qobject_cast_Engine o) = o →
        setEngine arg w o σ = Some (tt, σ') → setEngine arg w' o σ' = Some (tt, σ')).
Proof.
  split; [|split].
  - intros s. rewrite !setProviderId_unfold. case_bool_decide as Hs.
    + intros (σ1 & (_ & _ & Hp & _)%resetConnections_frame & ->)%then_emit_Some.
      rewrite bool_decide_eq_false_2; [done|]. intros Hne. apply Hne. cbn. by rewrite Hp.
    + intros [= <-]. rewrite bool_decide_eq_false_2; [done|by intros ?].
  - intros s. rewrite !setUsername_unfold. case_bool_decide as Hs.
    + intros (σ1 & (_ & _ & _ & Hu & _)%resetConnections_frame & ->)%then_emit_Some.
      rewrite bool_decide_eq_false_2; [done|]. intros Hne. apply Hne. cbn. by rewrite Hu.
    + intros [= <-]. rewrite bool_decide_eq_false_2; [done|by intros ?].
  - intros o Ho. rewrite !setEngine_unfold. case_bool_decide as Hs.
    + intros (σ1 & (_ & He & _)%resetConnections_frame & ->)%then_emit_Some.
      rewrite bool_decide_eq_false_2; [done|]. intros Hne. apply Hne. cbn. by rewrite He.
    + intros [= <-]. rewrite bool_decide_eq_false_2; [done|by intros ?].
Qed.

(** X10: [setEngine] given an object that is not a KNewStuffQuick engine
    stores the null pointer and emits [engineChanged] on every call,
    whatever engine was stored; it always returns. *)
Theorem setEngine_not_an_Engine w σ o :
  o ≠ None →
  qobject_cast_Engine o = None →
  ∃ σ',
    setEngine arg w o σ = Some (tt, σ') ∧
    engine (d σ') = None ∧
    trace σ' =
      trace σ ++ (if componentCompleted (d σ) then lookupRequest arg σ' else [])
        ++ [EngineChanged; DataChanged].
Proof.
  intros Ho Hcast.
  assert (as_QObject (engine (d σ)) ≠ o) as Hne.
  { intros <-. destruct (engine (d σ)); [done|by destruct Ho]. }
  rewrite setEngine_unfold, bool_decide_eq_true_2, Hcast by done.
  destruct (resetConnections_without_engine w (with_d (setEngineField None (d σ)) σ) eq_refl)
    as [σ1 Hr].
  rewrite Hr. exists (logged [EngineChanged; DataChanged] σ1). split; [done|].
  pose proof (resetConnections_trace _ _ _ Hr) as Ht.
  apply resetConnections_frame in Hr as (_ & He & _).
  split; [done|]. cbn. rewrite Ht. cbn. by rewrite <- app_assoc.
Qed.

(** X11: a getter returns what its setter stored: [providerId()] and
    [username()] the string given, [engine()] the object given when it is
    a null pointer or a KNewStuffQuick engine and the null pointer for any
    other object. *)
Theorem getters_return_what_was_set w σ σ' :
  (∀ s, setProviderId arg w s σ = Some (tt, σ') → read_providerId σ' = Some (s, σ')) ∧
  (∀ s, setUsername arg w s σ = Some (tt, σ') → read_username σ' = Some (s, σ')) ∧
  (∀ o, setEngine arg w o σ = Some (tt, σ') →
        read_engine σ' =
          Some (match o with Some (QuickEngine _) => o | _ => None end, σ')).
Proof.
  unfold read_providerId, read_username, read_engine. unfold_M. cbn.
  split; [|split].
  - intros s. rewrite setProviderId_unfold. case_bool_decide as Hs.
    + intros (σ1 & (_ & _ & Hp & _)%resetConnections_frame & ->)%then_emit_Some.
      cbn. by rewrite Hp.
    + intros [= <-]. do 2 f_equal. by destruct (decide (providerId (d σ) = s)).
  - intros s. rewrite setUsername_unfold. case_bool_decide as Hs.
    + intros (σ1 & (_ & _ & _ & Hu & _)%resetConnections_frame & ->)%then_emit_Some.
      cbn. by rewrite Hu.
    + intros [= <-]. do 2 f_equal. by destruct (decide (username (d σ) = s)).
  - intros o. rewrite setEngine_unfold. case_bool_decide as Hs.
    + intros (σ1 & (_ & He & _)%resetConnections_frame & ->)%then_emit_Some.
      cbn. rewrite He. cbn. by destruct o as [[]|].
    + intros [= <-]. do 2 f_equal.
      destruct (decide (as_QObject (engine (d σ)) = o)) as [<-|]; [|done].
      by destruct (engine (d σ)).
Qed.

(** X12: what a call that changes a property sends, in order: first the
    lookup request for the state it ends in, and only on a completed
    adapter, then the change signal and [dataChanged]. For
    [componentComplete()] it is the lookup request alone. *)
Theorem lookup_is_requested_before_the_signal w σ σ' :
  (∀ o, as_QObject (engine (d σ)) ≠ o → setEngine arg w o σ = Some (tt, σ') →
        trace σ' =
          trace σ ++ (if componentCompleted (d σ) then lookupRequest arg σ' else [])
            ++ [EngineChanged; DataChanged]) ∧
  (∀ s, providerId (d σ) ≠ s → setProviderId arg w s σ = Some (tt, σ') →
        trace σ' =
          trace σ ++ (if componentCompleted (d σ) then lookupRequest arg σ' else [])
            ++ [ProviderIdChanged; DataChanged]) ∧
  (∀ s, username (d σ) ≠ s → setUsername arg w s σ = Some (tt, σ') →
        trace σ' =
          trace σ ++ (if componentCompleted (d σ) then lookupRequest arg σ' else [])
            ++ [UsernameChanged; DataChanged]) ∧
  (componentComplete arg w σ = Some (tt, σ') → trace σ' = trace σ ++ lookupRequest arg σ').
Proof.
  split; [|split; [|split]].
  - intros o Ho. rewrite setEngine_unfold, bool_decide_eq_true_2 by done.
    intros (σ1 & Hr%resetConnections_trace & ->)%then_emit_Some.
    cbn. rewrite Hr. cbn. by rewrite <- app_assoc.
  - intros s Hs. rewrite setProviderId_unfold, bool_decide_eq_true_2 by done.
    intros (σ1 & Hr%resetConnections_trace & ->)%then_emit_Some.
    cbn. rewrite Hr. cbn. by rewrite <- app_assoc.
  - intros s Hs. rewrite setUsername_unfold, bool_decide_eq_true_2 by done.
    intros (σ1 & Hr%resetConnections_trace & ->)%then_emit_Some.
    cbn. rewrite Hr. cbn. by rewrite <- app_assoc.
  - rewrite componentComplete_unfold. by intros Hr%resetConnections_trace.
Qed.

Lemma author_state σ : ∃ r, author arg σ = Some (r, logged (lookupRequest arg σ) σ).
Proof.
  rewrite author_unfold. unfold lookupRequest.
  destruct (provider (d σ)) as [p|]; [|rewrite logged_nil; by eexists].
  destruct (isEmpty _); [rewrite logged_nil; by eexists|].
  destruct (allAuthors σ !! _); [rewrite logged_nil|]; by eexists.
Qed.

Lemma read_state w c σ :
  isRead c = true → run arg w c σ = Some (tt, logged (lookupRequest arg σ) σ).
Proof.
  destruct (author_state σ) as [r Ha].
  assert (∀ A (m : M A) s, (m;; mret tt) s =
            match m s with Some (_, s1) => Some (tt, s1) | None => None end) as Hseq.
  { intros A m s. unfold_M. by destruct (m s) as [[? ?]|]. }
  destruct c; try done; intros _; cbn [run]; rewrite Hseq.
  - rewrite name_unfold, Ha. by destruct r.
  - unfold description. rewrite getter_unfold, Ha. by destruct r.
  - unfold homepage. rewrite getter_unfold, Ha. by destruct r.
  - unfold profilepage. rewrite getter_unfold, Ha. by destruct r.
  - unfold avatarUrl. rewrite getter_unfold, Ha. by destruct r.
Qed.

(** X13: reading a property always returns and touches neither the fields
    of the adapter, nor the shared hash, nor the connections: the state
    after it is the state before with the lookup request, if one is due,
    added to what was sent. *)
Theorem reading_only_requests w c σ :
  isRead c = true →
  ∃ σ',
    run arg w c σ = Some (tt, σ') ∧
    d σ' = d σ ∧ allAuthors σ' = allAuthors σ ∧ connections σ' = connections σ ∧
    trace σ' = trace σ ++ lookupRequest arg σ.
Proof.
  intros Hc. exists (logged (lookupRequest arg σ) σ). by rewrite read_state.
Qed.

Lemma logged_logged e1 e2 σ : logged e2 (logged e1 σ) = logged (e1 ++ e2) σ.
Proof. unfold logged. cbn. by rewrite app_assoc. Qed.

(** X14: requests are not de-duplicated: while the record is missing,
    every read of a property sends its own [loadPerson] for the same
    username to the same provider, one per read. *)
Theorem every_read_on_a_miss_requests cs σ p u :
  Forall (λ wc : World * Call, isRead wc.2 = true) cs →
  provider (d σ) = Some p →
  username (d σ) = u →
  u ≠ "" →
  allAuthors σ !! authorKey arg (KNSCore.Provider.id p) u = None →
  runAll arg cs σ = Some (tt, logged (replicate (length cs) (LoadPerson p u)) σ).
Proof.
  intros Hcs Hp Hu Hne Hmiss. revert σ Hp Hu Hmiss.
  induction Hcs as [|[w c] cs Hc _ IH]; intros σ Hp Hu Hmiss.
  - cbn. by rewrite logged_nil.
  - cbn [runAll]. unfold mbind, M_bind. rewrite (read_state w c σ Hc).
    assert (lookupRequest arg σ = [LoadPerson p u]) as ->.
    { unfold lookupRequest. rewrite Hp, Hu. apply isEmpty_false in Hne.
      by rewrite Hne, Hmiss. }
    rewrite (IH (logged [LoadPerson p u] σ)) by done.
    by rewrite logged_logged.
Qed.

Lemma forwarded_app t1 t2 : forwarded t1 → forwarded t2 → forwarded (t1 ++ t2).
Proof.
  intros H1 H2 i e Hi Hch.
  destruct (decide (i < length t1)) as [Hlt|Hge].
  - rewrite lookup_app_l in Hi by done.
    pose proof (H1 i e Hi Hch) as Hn.
    rewrite lookup_app_l; [done|]. by apply lookup_lt_Some in Hn.
  - rewrite lookup_app_r in Hi by lia.
    pose proof (H2 _ e Hi Hch) as Hn.
    rewrite lookup_app_r by lia. by replace (S i - length t1) with (S (i - length t1)) by lia.
Qed.

Lemma forwarded_quiet t : Forall (λ e, isChangeSignal e = false) t → forwarded t.
Proof.
  intros Ht i e Hi Hch. rewrite Forall_forall in Ht.
  assert (isChangeSignal e = false) by (apply Ht; by eapply list_elem_of_lookup_2).
  congruence.
Qed.

Lemma forwarded_signal e : forwarded [e; DataChanged].
Proof. intros [|[|i]] x Hi Hch; simplify_eq/=; done. Qed.

Lemma sound_events_app t1 t2 : sound_events t1 → sound_events t2 → sound_events (t1 ++ t2).
Proof.
  intros [Hr1 Hf1] [Hr2 Hf2]. split; [|by apply forwarded_app].
  intros p u [?|?]%elem_of_app; eauto.
Qed.

Lemma sound_events_nil : sound_events [].
Proof. split; [by intros p u ?%elem_of_nil|by intros i e]. Qed.

Lemma sound_events_lookupRequest σ : sound_events (lookupRequest arg σ).
Proof.
  unfold lookupRequest.
  destruct (provider (d σ)) as [p|]; [|apply sound_events_nil].
  destruct (isEmpty _) eqn:Hu; [apply sound_events_nil|].
  destruct (allAuthors σ !! _); [apply sound_events_nil|].
  split.
  - intros p' u' [= _ ->]%list_elem_of_singleton. by apply isEmpty_false.
  - apply forwarded_quiet. by repeat constructor.
Qed.

Lemma sound_events_signal e :
  isChangeSignal e = true → sound_events [e; DataChanged].
Proof.
  intros He. split; [|apply forwarded_signal].
  intros p u. rewrite !elem_of_cons, elem_of_nil. intros [<-|[?|[]]]; done.
Qed.

Lemma sound_events_dataChanged n : sound_events (replicate n DataChanged).
Proof.
  split.
  - by intros p u [? _]%elem_of_replicate.
  - apply forwarded_quiet, Forall_replicate. done.
Qed.

Lemma sound_events_reset (b : bool) σ :
  sound_events (if b then lookupRequest arg σ else []).
Proof. destruct b; [apply sound_events_lookupRequest|apply sound_events_nil]. Qed.

Lemma run_events w c σ σ' :
  run arg w c σ = Some (tt, σ') → ∃ e, trace σ' = trace σ ++ e ∧ sound_events e.
Proof.
  destruct (isRead c) eqn:Hread.
  { rewrite read_state by done. intros [= <-]. eexists. split; [done|].
    apply sound_events_lookupRequest. }
  destruct c; try done; cbn [run].
  - rewrite componentComplete_unfold. intros Hr%resetConnections_trace.
    eexists. split; [done|]. apply sound_events_reset.
  - rewrite setEngine_unfold. case_bool_decide.
    + intros (σ1 & Hr%resetConnections_trace & ->)%then_emit_Some.
      eexists. split; [cbn; rewrite Hr, <- app_assoc; done|].
      apply sound_events_app; [apply sound_events_reset|by apply sound_events_signal].
    + intros [= <-]. exists []. split; [by rewrite app_nil_r|apply sound_events_nil].
  - rewrite setProviderId_unfold. case_bool_decide.
    + intros (σ1 & Hr%resetConnections_trace & ->)%then_emit_Some.
      eexists. split; [cbn; rewrite Hr, <- app_assoc; done|].
      apply sound_events_app; [apply sound_events_reset|by apply sound_events_signal].
    + intros [= <-]. exists []. split; [by rewrite app_nil_r|apply sound_events_nil].
  - rewrite setUsername_unfold. case_bool_decide.
    + intros (σ1 & Hr%resetConnections_trace & ->)%then_emit_Some.
      eexists. split; [cbn; rewrite Hr, <- app_assoc; done|].
      apply sound_events_app; [apply sound_events_reset|by apply sound_events_signal].
    + intros [= <-]. exists []. split; [by rewrite app_nil_r|apply sound_events_nil].
  - unfold personLoaded. unfold_M. cbn. rewrite deliver_unfold.
    destruct (length _) as [|n].
    + intros [= <-]. exists []. split; [by rewrite app_nil_r|apply sound_events_nil].
    + destruct (provider (d σ)); [|done]. intros [= <-].
      eexists. split; [done|]. apply (sound_events_dataChanged (S n)).
Qed.

Lemma reachable_sound_events σ : reachable arg σ → sound_events (trace σ).
Proof.
  induction 1 as [cache|w c σ σ' _ IH Hr|p a σ _ IH]; [apply sound_events_nil| |done].
  destruct (run_events _ _ _ _ Hr) as (e & -> & He). by apply sound_events_app.
Qed.

(** X15: an adapter never asks for the person with the empty name: every
    [loadPerson] it has sent carries a non-empty username. *)
Theorem requests_carry_a_username σ p u :
  reachable arg σ → LoadPerson p u ∈ trace σ → u ≠ "".
Proof. intros [Hr _]%reachable_sound_events. apply Hr. Qed.

(** X16: the constructor's forwarding holds throughout: wherever the
    adapter has emitted [engineChanged], [providerIdChanged] or
    [usernameChanged], the next thing it emitted is [dataChanged]. *)
Theorem change_signals_carry_dataChanged σ i e :
  reachable arg σ →
  trace σ !! i = Some e →
  isChangeSignal e = true →
  trace σ !! S i = Some DataChanged.
Proof. intros [_ Hf]%reachable_sound_events. apply Hf. Qed.

(** X17: changing the provider id of a completed adapter to one its engine
    knows moves the adapter over: it then holds that provider and its one
    connection is from it, so the connection from the provider held
    before is gone. *)
Theorem setProviderId_moves_the_connection w σ s e ce p2 :
  reachable arg σ →
  componentCompleted (d σ) = true →
  engine (d σ) = Some e →
  Engine_engine w e = Some (CoreEngine ce) →
  Engine_provider w ce s = Some p2 →
  providerId (d σ) ≠ s →
  ∃ σ',
    setProviderId arg w s σ = Some (tt, σ') ∧
    providerId (d σ') = s ∧
    provider (d σ') = Some p2 ∧
    connections σ' = [p2].
Proof.
  intros Hreach Hc He Hw Hs Hne.
  destruct (setProviderId arg w s σ) as [[[] σ']|] eqn:Hrun.
  - exists σ'. split; [done|].
    assert (reachable arg σ') as Hreach'
      by (eapply (reachable_run arg w (CallSetProviderId s)); [done|exact Hrun]).
    revert Hrun. rewrite setProviderId_unfold, bool_decide_eq_true_2 by done.
    intros (σ1 & Hr & ->)%then_emit_Some.
    pose proof (resetConnections_frame _ _ _ _ Hr) as (_ & _ & Hpid & _).
    revert Hr. rewrite resetConnections_completed by done.
    unfold resolvedProvider. cbn. rewrite He, Hw, Hs.
    destruct (author _ _) as [[r σ2]|] eqn:Ha; [|done]. intros [= ->].
    apply author_frame in Ha as (Hd & _).
    assert (provider (d (logged [ProviderIdChanged; DataChanged] σ1)) = Some p2) as Hp
      by (cbn; by rewrite Hd).
    split; [done|]. split; [done|].
    by destruct (reachable_connected arg _ _ Hreach' Hp).
  - exfalso. revert Hrun.
    rewrite setProviderId_unfold, bool_decide_eq_true_2 by done.
    destruct (resetConnections arg w (with_d (setProviderIdField s (d σ)) σ))
      as [[[] σ1]|] eqn:Hr; [done|].
    apply resetConnections_None in Hr; [|done].
    unfold resolvedProvider in Hr. cbn in Hr. by rewrite He, Hw in Hr.
Qed.

End AuthorFurther.

(** *** At explicit inputs *)

(** X1 at [completing]: the engine knows [store] under the stored id. *)
Lemma resetConnections_resolves_provider_witness :
  ∃ σ',
    Author.resetConnections arg12 Examples.world Examples.completing = Some (tt, σ') ∧
    Author.provider (Author.d σ') = Some Examples.store.
Proof.
  apply (resetConnections_resolves_provider arg12 Examples.world Examples.completing 3 5);
    reflexivity.
Defined.

(** X2 at [connected]: one connection, from [store]. *)
Lemma connections_follow_provider_witness :
  Author.reachable arg12 Examples.connected ∧
  Author.connections Examples.connected = [Examples.store].
Proof.
  split; [exact connected_reachable|].
  exact (proj1 (connections_follow_provider arg12 Examples.connected connected_reachable)).
Defined.

(** X3 at [loaded]: the record of [leinir] is served. *)
Lemma cached_record_is_served_witness :
  Author.name arg12 Examples.loaded = Some ("Dan Leinir Turthra Jensen", Examples.loaded) ∧
  Author.description arg12 Examples.loaded = Some ("Maintainer", Examples.loaded).
Proof.
  destruct (cached_record_is_served arg12 Examples.loaded Examples.store "leinir"
              Examples.leinir eq_refl eq_refl ltac:(discriminate) eq_refl)
    as (Hn & Hd & _).
  split; [exact Hn|exact Hd].
Defined.

(** X4 at [anonymous]: the record under the key of the empty name is not
    looked at. *)
Lemma empty_username_is_never_looked_up_witness :
  Author.allAuthors Examples.anonymous !! Author.authorKey arg12 "api.kde-look.org" ""
    = Some Examples.nameless ∧
  Author.description arg12 Examples.anonymous = Some ("", Examples.anonymous).
Proof.
  split; [reflexivity|].
  exact (proj1 (proj2 (empty_username_is_never_looked_up arg12 Examples.anonymous eq_refl))).
Defined.

(** X5 at [connected]: without engine the adapter stays with [store]. *)
Lemma setEngine_null_keeps_provider_witness :
  ∃ σ',
    Author.setEngine arg12 Examples.world None Examples.connected = Some (tt, σ') ∧
    Author.engine (Author.d σ') = None ∧
    Author.connected_to σ' Examples.store.
Proof.
  destruct (setEngine_null_keeps_provider arg12 Examples.world Examples.connected
              Examples.store connected_reachable eq_refl eq_refl ltac:(discriminate))
    as (σ' & Hs & He & Hc & _).
  by exists σ'.
Defined.

(** X7 at [connected]: [mirror] is not the provider held. *)
Lemma personLoaded_from_other_provider_is_ignored_witness :
  Author.personLoaded arg12 Examples.mirror Examples.leinir Examples.connected
    = Some (tt, Examples.connected).
Proof.
  apply (personLoaded_from_other_provider_is_ignored arg12 Examples.connected
           Examples.mirror Examples.leinir connected_reachable).
  discriminate.
Defined.

(** X8 at [connected]: the record of [ahiemstra] is cached by the adapter
    of [leinir]. *)
Lemma personLoaded_caches_any_record_witness :
  ∃ σ',
    Author.personLoaded arg12 Examples.store Examples.ahiemstra Examples.connected
      = Some (tt, σ') ∧
    Author.allAuthors σ' !! Author.authorKey arg12 "api.kde-look.org" "ahiemstra"
      = Some Examples.ahiemstra.
Proof.
  eexists. split.
  - apply (personLoaded_caches_any_record arg12 Examples.connected Examples.store
             Examples.ahiemstra connected_reachable eq_refl).
  - reflexivity.
Defined.

(** X9 on the adapter as constructed: the second [setUsername("leinir")]
    changes nothing. *)
Lemma setters_are_idempotent_witness :
  ∃ σ',
    Author.setUsername arg12 Examples.world "leinir" (Author.initial ∅) = Some (tt, σ') ∧
    Author.setUsername arg12 Examples.world "leinir" σ' = Some (tt, σ').
Proof.
  eexists. split; [vm_compute; reflexivity|].
  apply (proj1 (proj2 (setters_are_idempotent arg12 Examples.world Examples.world
                         (Author.initial ∅) _)) "leinir").
  vm_compute; reflexivity.
Defined.

(** X10 at [connected]: an object that is no engine clears the engine and
    is announced. *)
Lemma setEngine_not_an_Engine_witness :
  ∃ σ',
    Author.setEngine arg12 Examples.world (Some (Author.OtherObject 9)) Examples.connected
      = Some (tt, σ') ∧
    Author.engine (Author.d σ') = None.
Proof.
  destruct (setEngine_not_an_Engine arg12 Examples.world Examples.connected
              (Some (Author.OtherObject 9)) ltac:(discriminate) eq_refl)
    as (σ' & Hs & He & _).
  by exists σ'.
Defined.

(** X11 on the adapter as constructed: [providerId()] after
    [setProviderId]. *)
Lemma getters_return_what_was_set_witness :
  ∃ σ',
    Author.setProviderId arg12 Examples.world "mirror.kde.org" (Author.initial ∅)
      = Some (tt, σ') ∧
    Author.read_providerId σ' = Some ("mirror.kde.org", σ').
Proof.
  eexists. split; [vm_compute; reflexivity|].
  apply (proj1 (getters_return_what_was_set arg12 Examples.world (Author.initial ∅) _)
           "mirror.kde.org").
  vm_compute; reflexivity.
Defined.

(** X12 at [completing]: [componentComplete()] sends the request for
    [leinir]. *)
Lemma lookup_is_requested_before_the_signal_witness :
  ∃ σ',
    Author.componentComplete arg12 Examples.world Examples.completing = Some (tt, σ') ∧
    Author.trace σ' = [Author.LoadPerson Examples.store "leinir"].
Proof.
  eexists. split; [vm_compute; reflexivity|].
  rewrite (proj2 (proj2 (proj2 (lookup_is_requested_before_the_signal arg12 Examples.world
             Examples.completing _)))); [reflexivity|].
  vm_compute; reflexivity.
Defined.

(** X13 at [connected]: reading [homepage()]. *)
Lemma reading_only_requests_witness :
  ∃ σ',
    Author.run arg12 Examples.world Author.CallHomepage Examples.connected = Some (tt, σ') ∧
    Author.d σ' = Author.d Examples.connected ∧
    Author.allAuthors σ' = Author.allAuthors Examples.connected.
Proof.
  destruct (reading_only_requests arg12 Examples.world Author.CallHomepage
              Examples.connected eq_refl) as (σ' & Hr & Hd & Hc & _).
  by exists σ'.
Defined.

(** X14 at [connected]: two reads, two requests. *)
Lemma every_read_on_a_miss_requests_witness :
  Author.runAll arg12 Examples.reads Examples.connected =
    Some (tt, Author.logged [Author.LoadPerson Examples.store "leinir";
                             Author.LoadPerson Examples.store "leinir"]
                Examples.connected).
Proof.
  apply (every_read_on_a_miss_requests arg12 Examples.reads Examples.connected
           Examples.store "leinir");
    [by repeat constructor|reflexivity|reflexivity|discriminate|reflexivity].
Defined.

(** X15 at [connected]: the request sent names [leinir]. *)
Lemma requests_carry_a_username_witness :
  Author.LoadPerson Examples.store "leinir" ∈ Author.trace Examples.connected ∧
  "leinir" ≠ "".
Proof.
  assert (Author.LoadPerson Examples.store "leinir" ∈ Author.trace Examples.connected)
    as Hin by (cbn; set_solver).
  split; [exact Hin|].
  exact (requests_carry_a_username arg12 Examples.connected Examples.store "leinir"
           connected_reachable Hin).
Defined.

(** X16 at [connected]: [usernameChanged] was the fifth event. *)
Lemma change_signals_carry_dataChanged_witness :
  Author.trace Examples.connected !! 4 = Some Author.UsernameChanged ∧
  Author.trace Examples.connected !! 5 = Some Author.DataChanged.
Proof.
  split; [reflexivity|].
  exact (change_signals_carry_dataChanged arg12 Examples.connected 4 Author.UsernameChanged
           connected_reachable eq_refl eq_refl).
Defined.

(** X17 at [connected], once the engine knows [mirror]. *)
Lemma setProviderId_moves_the_connection_witness :
  ∃ σ',
    Author.setProviderId arg12 Examples.world_with_mirror "mirror.kde.org" Examples.connected
      = Some (tt, σ') ∧
    Author.provider (Author.d σ') = Some Examples.mirror ∧
    Author.connections σ' = [Examples.mirror].
Proof.
  destruct (setProviderId_moves_the_connection arg12 Examples.world_with_mirror
              Examples.connected "mirror.kde.org" 3 5 Examples.mirror
              connected_reachable eq_refl eq_refl eq_refl eq_refl ltac:(discriminate))
    as (σ' & Hs & _ & Hp & Hc).
  by exists σ'.
Defined.
